(** * kidnap: a tiny TypeScript bundler (src/index.ts)

    A shallow embedding of the bundler and of the run-time loader it emits,
    with the properties of its specification stated over that embedding.

    Conventions.
    - A JavaScript string is a [string]; a string that holds characters
      outside ASCII is held by its UTF-8 bytes.
    - Paths follow the POSIX flavour of Node's [path] module.
    - A call that can end the process ([error], an uncaught exception) or
      that can loop returns an [outcome]; loops take fuel, and [OutOfFuel]
      (or [None]) means that the fuel given was not enough.
    - The file system, the TypeScript compiler and [require] are the
      fields of a [World]. *)

From Stdlib Require Import String Ascii List ZArith Lia Bool.
From stdpp Require Import base option list strings pretty gmap.

Local Open Scope string_scope.
Local Open Scope list_scope.

(** ** Characters and strings *)

Module Str.

Definition chars (s : string) : list ascii := list_ascii_of_string s.
Definition of_chars (cs : list ascii) : string := string_of_list_ascii cs.

Definition slash : ascii := "/"%char.

Definition is_slash (c : ascii) : bool := Ascii.eqb c slash.

Fixpoint prefixb (p cs : list ascii) : bool :=
  match p, cs with
  | [], _ => true
  | a :: p', c :: cs' => Ascii.eqb a c && prefixb p' cs'
  | _ :: _, [] => false
  end.

(** [s.startsWith(p)] *)
Definition startsWith (s p : string) : bool := prefixb (chars p) (chars s).

(** [s.endsWith(p)] *)
Definition endsWith (s p : string) : bool :=
  prefixb (rev (chars p)) (rev (chars s)).

(** [parts.join(sep)] on character lists *)
Fixpoint join (sep : list ascii) (parts : list (list ascii)) : list ascii :=
  match parts with
  | [] => []
  | [p] => p
  | p :: rest => p ++ sep ++ join sep rest
  end.

End Str.

(** ** Node's [path] module, POSIX flavour *)

Module Path.
Import Str.

(** The pieces of a path between its separators; an empty piece stands
    for a leading, trailing or doubled separator. *)
Fixpoint segments (cs : list ascii) : list (list ascii) :=
  match cs with
  | [] => [[]]
  | c :: cs' =>
      if is_slash c then [] :: segments cs'
      else match segments cs' with
           | s :: r => (c :: s) :: r
           | [] => [[c]]
           end
  end.

Definition dot : list ascii := chars ".".
Definition dotdot : list ascii := chars "..".

Definition seg_eqb (a b : list ascii) : bool :=
  bool_decide (a = b).

(** One step of [normalizeString] below the root: empty pieces and [.]
    vanish, [..] removes the piece before it (nothing at the root), any
    other piece is kept.  The stack holds the kept pieces, last first. *)
Definition norm_step (stack : list (list ascii)) (seg : list ascii)
  : list (list ascii) :=
  if seg_eqb seg [] then stack
  else if seg_eqb seg dot then stack
  else if seg_eqb seg dotdot then tail stack
  else seg :: stack.

Definition normalize (segs : list (list ascii)) : list (list ascii) :=
  rev (fold_left norm_step segs []).

(** The loop of [path.resolve]: arguments are taken from the last to the
    first, each followed by a separator, until one is absolute; empty
    arguments are skipped and the working directory comes last.
    [rargs] is the argument list reversed. *)
Fixpoint gather (cwd : list ascii) (rargs : list (list ascii)) : list ascii :=
  match rargs with
  | [] => cwd ++ [slash]
  | p :: rest =>
      match p with
      | [] => gather cwd rest
      | c :: _ =>
          if is_slash c then p ++ [slash]
          else gather cwd rest ++ p ++ [slash]
      end
  end.

(** [path.resolve(...args)], for an absolute working directory [cwd]
    (which [process.cwd()] always is): the result is absolute and
    normalised, without a trailing separator. *)
Definition resolve (cwd : string) (args : list string) : string :=
  of_chars (slash :: join [slash]
              (normalize (segments (gather (chars cwd) (rev (map chars args)))))).

(** [path.dirname(path)].  The scan runs from the end of the path down to
    index 1: trailing separators are skipped, then the piece before them,
    and the path is cut at the separator found there. *)
Fixpoint drop_slashes (r : list ascii) : list ascii :=
  match r with
  | c :: r' => if is_slash c then drop_slashes r' else r
  | [] => []
  end.

Fixpoint drop_piece (r : list ascii) : list ascii :=
  match r with
  | c :: r' => if is_slash c then r else drop_piece r'
  | [] => []
  end.

Definition dirname_chars (cs : list ascii) : list ascii :=
  match cs with
  | [] => dot
  | c0 :: rest =>
      let hasRoot := is_slash c0 in
      match drop_piece (drop_slashes (rev rest)) with
      | [] => if hasRoot then [slash] else dot
      | _ :: before =>
          match before with
          | [] => if hasRoot then [slash; slash] else [c0]
          | _ => c0 :: rev before
          end
      end
  end.

Definition dirname (p : string) : string := of_chars (dirname_chars (chars p)).

End Path.

(** ** [JSON.parse], on the texts that denote a string *)

Module JSON.
Import Str.

(** A character of a JSON string: one taken as it stands, or a UTF-16
    code unit written as a [\uXXXX] escape. *)
Inductive item := Raw (c : ascii) | Unit16 (u : N).

Definition dquote : ascii := ascii_of_N 34.
Definition backslash : ascii := ascii_of_N 92.

Definition is_ws (c : ascii) : bool :=
  let n := N_of_ascii c in
  (n =? 9)%N || (n =? 10)%N || (n =? 13)%N || (n =? 32)%N.

Fixpoint skip_ws (cs : list ascii) : list ascii :=
  match cs with
  | c :: cs' => if is_ws c then skip_ws cs' else cs
  | [] => []
  end.

Definition hex_digit (c : ascii) : option N :=
  let n := N_of_ascii c in
  if (48 <=? n)%N && (n <=? 57)%N then Some (n - 48)%N
  else if (97 <=? n)%N && (n <=? 102)%N then Some (n - 87)%N
  else if (65 <=? n)%N && (n <=? 70)%N then Some (n - 55)%N
  else None.

Definition hex4 (a b c d : ascii) : option N :=
  match hex_digit a, hex_digit b, hex_digit c, hex_digit d with
  | Some x, Some y, Some z, Some w => Some (((x * 16 + y) * 16 + z) * 16 + w)%N
  | _, _, _, _ => None
  end.

Definition simple_escape (e : ascii) : option ascii :=
  let n := N_of_ascii e in
  if (n =? 34)%N then Some dquote
  else if (n =? 92)%N then Some backslash
  else if (n =? 47)%N then Some slash
  else if (n =? 98)%N then Some (ascii_of_N 8)
  else if (n =? 102)%N then Some (ascii_of_N 12)
  else if (n =? 110)%N then Some (ascii_of_N 10)
  else if (n =? 114)%N then Some (ascii_of_N 13)
  else if (n =? 116)%N then Some (ascii_of_N 9)
  else None.

Definition push (x : item) (r : option (list item * list ascii))
  : option (list item * list ascii) :=
  match r with
  | Some (l, rest) => Some (x :: l, rest)
  | None => None
  end.

(** The characters of a JSON string after its opening quote, up to the
    closing quote, and what follows it. *)
Fixpoint string_body (cs : list ascii) : option (list item * list ascii) :=
  match cs with
  | [] => None
  | c :: cs' =>
      if Ascii.eqb c dquote then Some ([], cs')
      else if Ascii.eqb c backslash then
        match cs' with
        | [] => None
        | e :: cs'' =>
            if Ascii.eqb e "u"%char then
              match cs'' with
              | h1 :: h2 :: h3 :: h4 :: rest =>
                  match hex4 h1 h2 h3 h4 with
                  | Some u => push (Unit16 u) (string_body rest)
                  | None => None
                  end
              | _ => None
              end
            else
              match simple_escape e with
              | Some x => push (Raw x) (string_body cs'')
              | None => None
              end
        end
      else if (N_of_ascii c <? 32)%N then None
      else push (Raw c) (string_body cs')
  end.

Definition utf8 (cp : N) : list ascii :=
  if (cp <? 128)%N then [ascii_of_N cp]
  else if (cp <? 2048)%N then
    [ascii_of_N (192 + cp / 64); ascii_of_N (128 + cp mod 64)]
  else if (cp <? 65536)%N then
    [ascii_of_N (224 + cp / 4096); ascii_of_N (128 + (cp / 64) mod 64);
     ascii_of_N (128 + cp mod 64)]
  else
    [ascii_of_N (240 + cp / 262144); ascii_of_N (128 + (cp / 4096) mod 64);
     ascii_of_N (128 + (cp / 64) mod 64); ascii_of_N (128 + cp mod 64)].

Definition is_high (u : N) : bool := (55296 <=? u)%N && (u <=? 56319)%N.
Definition is_low (u : N) : bool := (56320 <=? u)%N && (u <=? 57343)%N.

(** The bytes of the parsed string; an escaped surrogate pair is one
    character. *)
Fixpoint encode (items : list item) : list ascii :=
  match items with
  | [] => []
  | Raw c :: r => c :: encode r
  | Unit16 hi :: r =>
      match r with
      | Unit16 lo :: r' =>
          if is_high hi && is_low lo
          then utf8 (65536 + (hi - 55296) * 1024 + (lo - 56320)) ++ encode r'
          else utf8 hi ++ encode r
      | _ => utf8 hi ++ encode r
      end
  end.

(** [JSON.parse(text)] where the caller goes on to use the result as a
    string: [Some s] when [text] is a JSON string denoting [s]; [None]
    when [JSON.parse] throws a [SyntaxError] or returns a value that is
    not a string. *)
Definition parse (text : string) : option string :=
  match skip_ws (chars text) with
  | q :: cs =>
      if Ascii.eqb q dquote then
        match string_body cs with
        | Some (items, rest) =>
            match skip_ws rest with
            | [] => Some (of_chars (encode items))
            | _ :: _ => None
            end
        | None => None
        end
      else None
  | [] => None
  end.

Definition hex_char (n : N) : ascii :=
  if (n <? 10)%N then ascii_of_N (48 + n) else ascii_of_N (87 + n).

(** [\uXXXX], in lower-case digits *)
Definition unicode_escape (u : N) : list ascii :=
  [backslash; "u"%char; hex_char (u / 4096); hex_char ((u / 256) mod 16);
   hex_char ((u / 16) mod 16); hex_char (u mod 16)].

(** [QuoteJSONString]: the quote, the backslash and the control characters
    are escaped, and so is a surrogate that stands alone (the three bytes
    that begin with 237 and a byte from 160 on). *)
Fixpoint quote_chars (cs : list ascii) : list ascii :=
  match cs with
  | [] => []
  | c :: cs' =>
      let n := N_of_ascii c in
      if (n =? 34)%N then backslash :: dquote :: quote_chars cs'
      else if (n =? 92)%N then backslash :: backslash :: quote_chars cs'
      else if (n =? 8)%N then backslash :: "b"%char :: quote_chars cs'
      else if (n =? 9)%N then backslash :: "t"%char :: quote_chars cs'
      else if (n =? 10)%N then backslash :: "n"%char :: quote_chars cs'
      else if (n =? 12)%N then backslash :: "f"%char :: quote_chars cs'
      else if (n =? 13)%N then backslash :: "r"%char :: quote_chars cs'
      else if (n <? 32)%N then unicode_escape n ++ quote_chars cs'
      else if (n =? 237)%N then
        match cs' with
        | b2 :: b3 :: rest =>
            if (160 <=? N_of_ascii b2)%N then
              unicode_escape (53248 + (N_of_ascii b2 mod 64) * 64
                              + N_of_ascii b3 mod 64)
              ++ quote_chars rest
            else c :: quote_chars cs'
        | _ => c :: quote_chars cs'
        end
      else c :: quote_chars cs'
  end.

(** [JSON.stringify(s)] for a string [s] *)
Definition stringify (s : string) : string :=
  of_chars (dquote :: quote_chars (chars s) ++ [dquote]).

End JSON.

(** ** Outcomes *)

Inductive exn :=
| SpecifierError   (* [JSON.parse] threw, or [dep.startsWith] is not a function *)
| ReadError        (* [readFileSync] threw *)
| ManifestError    (* [require] of the manifest threw, or its entry is not a string *)
| WriteError.      (* [writeFileSync] threw *)

Inductive failure :=
| Exit1 (msg : string)    (* [error(msg)]: the message is printed, [process.exit(1)] *)
| Uncaught (e : exn).     (* an exception nothing catches: the process exits with status 1 *)

Inductive outcome (A : Type) :=
| Returns (a : A)
| Aborts (f : failure)
| OutOfFuel.

Arguments Returns {A} a.
Arguments Aborts {A} f.
Arguments OutOfFuel {A}.

#[global] Instance outcome_ret : MRet outcome := fun A a => Returns a.

#[global] Instance outcome_bind : MBind outcome := fun A B k m =>
  match m with
  | Returns a => k a
  | Aborts f => Aborts f
  | OutOfFuel => OutOfFuel
  end.

(** [error(msg)] *)
Definition error {A} (msg : string) : outcome A := Aborts (Exit1 msg).

Definition cannot_find (what : string) : string :=
  "Cannot find module '" +:+ what +:+ "'.".

(** ** The world outside the bundler *)

(** The module specifier of an import declaration, as the TypeScript parser
    gives it: a string literal with the quote it was written with and the
    characters between the quotes, or some other expression with its
    source text. *)
Inductive Quote := DoubleQuote | SingleQuote.

Inductive Expression :=
| StringLiteral (quote : Quote) (raw : string)
| OtherExpression (text : string).

Definition quote_mark (q : Quote) : string :=
  match q with
  | DoubleQuote => String JSON.dquote EmptyString
  | SingleQuote => "'"
  end.

(** [moduleSpecifier.getText(source)] *)
Definition getText (e : Expression) : string :=
  match e with
  | StringLiteral q raw => quote_mark q +:+ raw +:+ quote_mark q
  | OtherExpression text => text
  end.

(** A top-level child of a source file. *)
Inductive Node :=
| ImportDeclaration (moduleSpecifier : Expression)
| OtherNode.

(** A field of a package manifest as [require] returns it: absent, a
    string, or some other value, of which only its truthiness matters. *)
Inductive field :=
| Missing
| Text (s : string)
| NotText (truthy : bool).

Record PackageJSON := { pkg_module : field; pkg_main : field }.

Definition truthy (f : field) : bool :=
  match f with
  | Missing => false
  | Text s => negb (String.eqb s "")
  | NotText b => b
  end.

(** [a || b] *)
Definition or_else (a b : field) : field := if truthy a then a else b.

Record World := {
  cwd : string;                                    (* process.cwd() *)
  isFile : string -> bool;
  isDir : string -> bool;
  readFile : string -> option string;              (* None: readFileSync throws *)
  createSourceFile : string -> string -> list Node; (* file, content: top-level children *)
  transpileModule : string -> string;              (* content: outputText *)
  require : string -> option PackageJSON;          (* None: require throws *)
  getPreEmitDiagnostics : string -> list string;   (* entry file: messageText of each diagnostic *)
  canWrite : string -> bool                        (* false: writeFileSync throws *)
}.

(** ** Modules and the registry *)

Record Module := {
  id : option nat;                 (* [moduleToId.get(file)!]; [None] is [undefined] *)
  file : string;
  deps : list (string * nat);      (* a [Map], in insertion order *)
  transpiled : string
}.

(** The three globals of the graph builder. *)
Record Globals := {
  moduleId : nat;
  moduleToId : gmap string nat;
  files : list string
}.

(** [deps.set(key, val)]: a key already present keeps its place. *)
Fixpoint map_set (deps : list (string * nat)) (key : string) (val : nat)
  : list (string * nat) :=
  match deps with
  | [] => [(key, val)]
  | (k, v) :: r =>
      if String.eqb k key then (k, val) :: r else (k, v) :: map_set r key val
  end.

(** [deps.get(key)] *)
Fixpoint map_get (deps : list (string * nat)) (key : string) : option nat :=
  match deps with
  | [] => None
  | (k, v) :: r => if String.eqb k key then Some v else map_get r key
  end.

(** [source.forEachChild(cb)] with a callback that returns nothing. *)
Fixpoint forEachChild {S : Type} (nodes : list Node)
  (cb : S -> Node -> outcome S) (st : S) : outcome S :=
  match nodes with
  | [] => Returns st
  | n :: rest => st' ← cb st n; forEachChild rest cb st'
  end.

Section Bundler.

Variable w : World.

Definition resolve (args : list string) : string := Path.resolve (cwd w) args.

(** [from ? resolve(dirname(from), path) : resolve(path)] *)
Definition absPathOf (path : string) (from : option string) : string :=
  match from with
  | Some f => if String.eqb f "" then resolve [path]
              else resolve [Path.dirname f; path]
  | None => resolve [path]
  end.

Definition tsPathOf (absPath : string) : string :=
  if Str.endsWith absPath ".ts" then absPath else absPath +:+ ".ts".

Definition localModulePath (path : string) (from : option string) : outcome string :=
  let absPath := absPathOf path from in
  let tsPath := tsPathOf absPath in
  let indexPath := resolve [absPath; "index.ts"] in
  if isFile w tsPath then Returns tsPath
  else if isDir w absPath && isFile w indexPath then Returns indexPath
  else error (cannot_find path).

(** The [while] loop of [npmModulePath]; [None] when the fuel runs out. *)
Fixpoint findProjRoot (fuel : nat) (projRoot : string) : option string :=
  match fuel with
  | O => None
  | S fuel' =>
      if isDir w (resolve [projRoot; "node_modules"]) then Some projRoot
      else findProjRoot fuel' (Path.dirname projRoot)
  end.

Definition npmModulePath (fuel : nat) (pkg from : string) : outcome string :=
  match findProjRoot fuel (Path.dirname from) with
  | None => OutOfFuel
  | Some projRoot =>
      let pkgRoot := resolve [projRoot; "node_modules"; pkg] in
      let jsPath := pkgRoot +:+ ".js" in
      let viaIndex : outcome string :=
        let indexPath := resolve [pkgRoot; "index.js"] in
        if isFile w indexPath then Returns indexPath
        else error (cannot_find pkg) in
      if isFile w jsPath then Returns jsPath
      else
        let packageJSONPath := resolve [pkgRoot; "package.json"] in
        if isFile w packageJSONPath then
          match require w packageJSONPath with
          | None => Aborts (Uncaught ManifestError)
          | Some manifest =>
              let main := or_else (pkg_module manifest) (pkg_main manifest) in
              if truthy main then
                match main with
                | Text m => Returns (resolve [pkgRoot; m])
                | _ => Aborts (Uncaught ManifestError)
                end
              else viaIndex
          end
        else viaIndex
  end.

(** The two branches on [dep.startsWith('.')]. *)
Definition depPathOf (fuel : nat) (dep file : string) : outcome string :=
  if Str.startsWith dep "." then localModulePath dep (Some file)
  else npmModulePath fuel dep file.

(** The callback of [source.forEachChild] in [compile]. *)
Definition visit (fuel : nat) (file : string)
  (st : list (string * nat) * Globals) (node : Node)
  : outcome (list (string * nat) * Globals) :=
  let '(deps, g) := st in
  match node with
  | ImportDeclaration moduleSpecifier =>
      match JSON.parse (getText moduleSpecifier) with
      | None => Aborts (Uncaught SpecifierError)
      | Some dep =>
          depPath ← depPathOf fuel dep file;
          match moduleToId g !! depPath with
          | Some depID => Returns (map_set deps dep depID, g)
          | None =>
              let depID := S (moduleId g) in
              Returns (map_set deps dep depID,
                       {| moduleId := depID;
                          moduleToId := <[depPath := depID]> (moduleToId g);
                          files := files g ++ [depPath] |})
          end
      end
  | OtherNode => Returns (deps, g)
  end.

Definition compile (fuel : nat) (file : string) (g : Globals)
  : outcome (Module * Globals) :=
  let id := moduleToId g !! file in
  match readFile w file with
  | None => Aborts (Uncaught ReadError)
  | Some content =>
      let source := createSourceFile w file content in
      '(deps, g') ← forEachChild source (visit fuel file) ([], g);
      Returns ({| id := id; file := file; deps := deps;
                  transpiled := transpileModule w content |}, g')
  end.

(** [while ((file = files.shift())) modules.push(compile(file))]: the loop
    ends on an empty queue and on an empty string, which is falsy. *)
Fixpoint build_loop (fuel : nat) (g : Globals) (modules : list Module)
  : outcome (list Module * Globals) :=
  match fuel with
  | O => OutOfFuel
  | S fuel' =>
      match files g with
      | [] => Returns (modules, g)
      | file :: rest =>
          let g1 := {| moduleId := moduleId g; moduleToId := moduleToId g;
                       files := rest |} in
          if String.eqb file "" then Returns (modules, g1)
          else
            '(m, g2) ← compile fuel' file g1;
            build_loop fuel' g2 (modules ++ [m])
      end
  end.

Definition initial (entryFile : string) : Globals :=
  {| moduleId := 0; moduleToId := {[ entryFile := 0 ]}; files := [entryFile] |}.

Definition build (fuel : nat) (entryFile : string) : outcome (list Module * Globals) :=
  build_loop fuel (initial entryFile) [].

(** *** Code generation *)

Definition prelude : string := "
var executedModules = {};
(function executeModule(id) {
  if (executedModules[id]) return executedModules[id];

  var mod = modules[id];
  var localRequire = function (path) {
    return executeModule(mod[1][path]);
  };
  var module = { exports: {} };
  executedModules[id] = module.exports;
  mod[0](localRequire, module, module.exports);
  return module.exports;
})(0);
".

(** [`${mod.id}`] *)
Definition id_text (i : option nat) : string :=
  match i with
  | Some n => pretty n
  | None => "undefined"
  end.

(** What the inner loop of [generate] yields for one dependency. *)
Definition generate_dep (d : string * nat) : string :=
  JSON.stringify (fst d) +:+ ": " +:+ pretty (snd d) +:+ ",".

(** What the outer loop of [generate] yields for one module. *)
Definition generate_module (m : Module) : list string :=
  [id_text (id m) +:+ ": [";
   "function (require, module, exports) {";
   transpiled m;
   "}, {"]
  ++ map generate_dep (deps m)
  ++ ["}"; "],"].

(** The strings that [generate(modules)] yields, in order. *)
Definition generate (modules : list Module) : list string :=
  [";(function (modules) {"; prelude; "})({"]
  ++ flat_map generate_module modules
  ++ ["})"].

Definition newline : string := String (ascii_of_N 10) EmptyString.

(** [for (let code of generate(modules)) result += code + '\n'] *)
Definition result_text (chunks : list string) : string :=
  fold_left (fun result code => result +:+ code +:+ newline) chunks "".

(** *** The program *)

Record Option := { input : option string; output : option string }.

(** The loop over [process.argv], from index [i]. *)
Fixpoint parse_argv (i : nat) (argv : list string) (opt : Option) : Option :=
  match argv with
  | [] => opt
  | v :: rest =>
      let option1 :=
        if Nat.eqb i 2 then {| input := Some v; output := output opt |}
        else opt in
      let option2 :=
        if String.eqb v "-o" then {| input := input option1; output := head rest |}
        else option1 in
      parse_argv (S i) rest option2
  end.

(** A line on the error stream: a message of [console.error], or the
    report that the host prints for an exception nothing catches. *)
Inductive line :=
| Message (msg : string)
| Trace (e : exn).

(** What a run of the program leaves behind. *)
Record Process := {
  stdout : list string;
  stderr : list line;
  exitCode : nat;
  written : list (string * string)     (* path, text *)
}.

(** The end of the process on a failure: [error] prints its message and
    exits with status 1; so does the host on an uncaught exception. *)
Definition die (out : list string) (f : failure) : Process :=
  match f with
  | Exit1 msg => {| stdout := out; stderr := [Message msg]; exitCode := 1; written := [] |}
  | Uncaught e => {| stdout := out; stderr := [Trace e]; exitCode := 1; written := [] |}
  end.

(** The whole program, top to bottom; [None] when the fuel runs out. *)
Definition main (fuel : nat) (argv : list string) : option Process :=
  let opt := parse_argv 0 argv {| input := None; output := None |} in
  match input opt with
  | None => Some (die [] (Exit1 "No input is provided."))
  | Some inp =>
      if String.eqb inp "" then Some (die [] (Exit1 "No input is provided."))
      else
        match localModulePath inp None with
        | OutOfFuel => None
        | Aborts f => Some (die [] f)
        | Returns entryFile =>
            let diagnostics := getPreEmitDiagnostics w entryFile in
            match diagnostics with
            | _ :: _ => Some (die diagnostics (Exit1 "Type check Error."))
            | [] =>
                match build fuel entryFile with
                | OutOfFuel => None
                | Aborts f => Some (die [] f)
                | Returns (modules, _) =>
                    let result := result_text (generate modules) in
                    match output opt with
                    | None => Some (die [] (Uncaught WriteError))
                    | Some out =>
                        if canWrite w out then
                          Some {| stdout := []; stderr := []; exitCode := 0;
                                  written := [(out, result)] |}
                        else Some (die [] (Uncaught WriteError))
                    end
                end
            end
        end
  end.

End Bundler.

(** ** The run-time loader of the bundle

    The prelude that [generate] emits, as a function on the state of the
    running bundle.  A factory is the behaviour of a module body towards
    the loader and the heap; its steps are finitely many between two calls
    of [require]. *)

Module Loader.

Definition loc := nat.

Inductive value :=
| VUndefined
| VNumber (n : Z)
| VObject (l : loc).

(** What a factory does with its three arguments: it calls
    [require(path)] and goes on with what the call returned ([None] when
    the call threw and the body caught the exception), reads and writes
    properties of objects, creates objects, reads and replaces
    [module.exports], returns or throws. *)
Inductive Body :=
| Done
| Throw
| Require (path : string) (k : option value -> Body)
| GetProp (o : loc) (key : string) (k : value -> Body)
| SetProp (o : loc) (key : string) (v : value) (k : Body)
| NewObject (k : loc -> Body)
| GetModuleExports (k : value -> Body)
| SetModuleExports (v : value) (k : Body).

(** An entry of the module table: [mod[0]], given the [exports] object it
    is called with, and the pairs of the literal that is written for
    [mod[1]]. *)
Record Entry := {
  factory : loc -> Body;
  table_deps : list (string * nat)
}.

Inductive completion :=
| Normal (v : value)
| Thrown.

(** What [mod[1][path]] is, and so what [executeModule] is called with:
    a number of the dependency table, [undefined], or the member [name]
    of [Object.prototype], which every object written as a literal
    inherits.  As keys of [executedModules] and of [modules] these are
    strings that differ from one another: the digits of the number,
    [undefined], and the text of the inherited function or object. *)
Inductive ident :=
| Number (n : nat)
| Undefined
| Inherited (name : string).

#[global] Instance ident_eq_dec : EqDecision ident.
Proof. solve_decision. Defined.

#[global] Instance ident_countable : Countable ident.
Proof.
  refine (inj_countable'
            (fun i => match i with
                      | Number n => inl n
                      | Undefined => inr (inl tt)
                      | Inherited name => inr (inr name)
                      end)
            (fun x => match x with
                      | inl n => Number n
                      | inr (inl _) => Undefined
                      | inr (inr name) => Inherited name
                      end) _).
  by intros [].
Defined.

(** The names that [Object.prototype] has in Node. *)
Definition object_prototype : list string :=
  ["constructor"; "__defineGetter__"; "__defineSetter__"; "hasOwnProperty";
   "__lookupGetter__"; "__lookupSetter__"; "isPrototypeOf";
   "propertyIsEnumerable"; "toString"; "valueOf"; "__proto__"; "toLocaleString"].

(** [mod[1][path]], for the object that the literal which [generate]
    writes from [deps] denotes.  In a literal, a key [__proto__] with a
    number as its value defines no property; every other key is a
    property of the object.  A name that the object does not have itself
    is looked up in [Object.prototype]. *)
Definition property (tbl : list (string * nat)) (path : string) : ident :=
  match (if String.eqb path "__proto__" then None else map_get tbl path) with
  | Some n => Number n
  | None =>
      if existsb (String.eqb path) object_prototype then Inherited path
      else Undefined
  end.

(** The state of the running bundle.  [invoked] and [calls] are not in
    the emitted code: they record, in order, the identities whose factory
    was called and the arguments [executeModule] was called with. *)
Record Machine := {
  heap : list (gmap string value);
  executedModules : gmap ident loc;
  invoked : list nat;
  calls : list ident
}.

Definition start : Machine :=
  {| heap := []; executedModules := ∅; invoked := []; calls := [] |}.

(** The objects that the bodies read and write are records of the
    properties they have themselves: [o[key]] and [o[key] = v] for the
    names below that every object inherits are outside the model.  What
    is proved of the loader holds whatever a body reads. *)
Definition get_prop (σ : Machine) (o : loc) (key : string) : value :=
  match heap σ !! o with
  | Some obj => default VUndefined (obj !! key)
  | None => VUndefined
  end.

Definition set_prop (σ : Machine) (o : loc) (key : string) (v : value) : Machine :=
  {| heap := alter (fun obj => <[key := v]> obj) o (heap σ);
     executedModules := executedModules σ;
     invoked := invoked σ;
     calls := calls σ |}.

Definition new_object (σ : Machine) : loc * Machine :=
  (length (heap σ),
   {| heap := heap σ ++ [∅];
      executedModules := executedModules σ;
      invoked := invoked σ;
      calls := calls σ |}).

Section Run.

Variable modules : gmap nat Entry.

(** [modules[id]] *)
Definition entry (id : ident) : option Entry :=
  match id with
  | Number n => modules !! n
  | Undefined | Inherited _ => None
  end.

(** The call [mod[0](localRequire, module, module.exports)] and the
    [return module.exports] after it.  [exec] is [executeModule], [tbl] is
    [mod[1]], [mexports] the value of [module.exports]. *)
Fixpoint run (exec : ident -> Machine -> option (completion * Machine))
  (tbl : list (string * nat)) (b : Body) (mexports : value) (σ : Machine)
  : option (completion * Machine) :=
  match b with
  | Done => Some (Normal mexports, σ)
  | Throw => Some (Thrown, σ)
  | Require path k =>
      match exec (property tbl path) σ with
      | None => None
      | Some (Normal v, σ') => run exec tbl (k (Some v)) mexports σ'
      | Some (Thrown, σ') => run exec tbl (k None) mexports σ'
      end
  | GetProp o key k => run exec tbl (k (get_prop σ o key)) mexports σ
  | SetProp o key v k => run exec tbl k mexports (set_prop σ o key v)
  | NewObject k => let '(l, σ') := new_object σ in run exec tbl (k l) mexports σ'
  | GetModuleExports k => run exec tbl (k mexports) mexports σ
  | SetModuleExports v k => run exec tbl k v σ
  end.

(** [executeModule(id)]; [None] when the fuel runs out.  For an [id]
    that [modules] does not have, [mod] is [undefined] and [mod[0]]
    throws, after the export object was cached. *)
Fixpoint executeModule (fuel : nat) (id : ident) (σ : Machine)
  : option (completion * Machine) :=
  match fuel with
  | O => None
  | S fuel' =>
      let σ0 := {| heap := heap σ; executedModules := executedModules σ;
                   invoked := invoked σ; calls := calls σ ++ [id] |} in
      match executedModules σ0 !! id with
      | Some l => Some (Normal (VObject l), σ0)
      | None =>
          let mod_ := entry id in
          let '(l, σ1) := new_object σ0 in
          let σ2 := {| heap := heap σ1;
                       executedModules := <[id := l]> (executedModules σ1);
                       invoked := invoked σ1; calls := calls σ1 |} in
          match mod_, id with
          | Some e, Number n =>
              let σ3 := {| heap := heap σ2; executedModules := executedModules σ2;
                           invoked := invoked σ2 ++ [n]; calls := calls σ2 |} in
              run (executeModule fuel') (table_deps e) (factory e l) (VObject l) σ3
          | _, _ => Some (Thrown, σ2)
          end
      end
  end.

End Run.

End Loader.

(** ** The vocabulary of the properties *)

Section Edges.

Variable w : World.

(** An import declaration of [file] that resolves to [q]. *)
Definition node_edge (file : string) (node : Node) (q : string) : Prop :=
  exists fuel e dep,
    node = ImportDeclaration e /\
    JSON.parse (getText e) = Some dep /\
    depPathOf w fuel dep file = Returns q.

(** An import edge of the dependency graph. *)
Definition import_edge (p q : string) : Prop :=
  exists content node,
    readFile w p = Some content /\
    node ∈ createSourceFile w p content /\
    node_edge p node q.

End Edges.

(** The values that the three globals take: the initial ones, those after
    a path is taken off the queue, those after the callback of [compile]
    has handled one more node. *)
Inductive reached (w : World) (entryFile : string) : Globals -> Prop :=
| reached_initial : reached w entryFile (initial entryFile)
| reached_shift g src rest :
    reached w entryFile g -> files g = src :: rest ->
    reached w entryFile
      {| moduleId := moduleId g; moduleToId := moduleToId g; files := rest |}
| reached_visit g fuel src deps node deps' g' :
    reached w entryFile g ->
    visit w fuel src (deps, g) node = Returns (deps', g') ->
    reached w entryFile g'.

(** An absolute path. *)
Definition absolute (p : string) : Prop := Str.startsWith p "/" = true.

(** The registry is a bijection between the registered paths and the
    identities [0 .. moduleId], and the entry file has identity [0]. *)
Definition is_bijection (entryFile : string) (g : Globals) : Prop :=
  moduleToId g !! entryFile = Some 0 /\
  (forall p i, moduleToId g !! p = Some i -> i <= moduleId g) /\
  (forall i, i <= moduleId g -> exists p, moduleToId g !! p = Some i) /\
  (forall p q i, moduleToId g !! p = Some i -> moduleToId g !! q = Some i -> p = q).

(** A character that a JSON string holds as it stands. *)
Definition plain (c : ascii) : bool :=
  negb (Ascii.eqb c JSON.dquote) && negb (Ascii.eqb c JSON.backslash)
  && negb (N_of_ascii c <? 32)%N.

(** A line [<string literal>: <value>,] of an object literal as
    JavaScript reads it: the string that the literal denotes, and the
    text of the value. *)
Definition read_property (line : string) : option (string * string) :=
  match Str.chars line with
  | q :: cs =>
      if Ascii.eqb q JSON.dquote then
        match JSON.string_body cs with
        | Some (items, ":"%char :: " "%char :: rest) =>
            match rev rest with
            | ","%char :: value =>
                Some (Str.of_chars (JSON.encode items), Str.of_chars (rev value))
            | _ => None
            end
        | _ => None
        end
      else None
  | [] => None
  end.

Section Bundles.

Import Loader.

Variable modules : gmap nat Entry.

(** From one state of the running bundle to a later one: what is cached
    stays cached, and the records only grow. *)
Definition later (σ σ' : Machine) : Prop :=
  (forall id l, executedModules σ !! id = Some l -> executedModules σ' !! id = Some l) /\
  length (invoked σ) <= length (invoked σ') /\
  length (heap σ) <= length (heap σ').





End Bundles.

(** ** Worlds given by tables *)

Fixpoint assoc {A : Type} (k : string) (l : list (string * A)) : option A :=
  match l with
  | [] => None
  | (k', a) :: r => if String.eqb k' k then Some a else assoc k r
  end.

Definition member (k : string) (l : list string) : bool :=
  existsb (String.eqb k) l.

(** A disk: source files with their text and their top-level children,
    directories, and package manifests. *)
Record Disk := {
  sources : list (string * (string * list Node));
  directories : list string;
  manifests : list (string * PackageJSON)
}.

Definition world_of (d : Disk) : World :=
  {| cwd := "/";
     isFile := fun p => bool_decide (is_Some (assoc p (sources d)))
                        || bool_decide (is_Some (assoc p (manifests d)));
     isDir := fun p => member p (directories d);
     readFile := fun p => fst <$> assoc p (sources d);
     createSourceFile := fun f _ => default [] (snd <$> assoc f (sources d));
     transpileModule := fun content => content;
     require := fun p => assoc p (manifests d);
     getPreEmitDiagnostics := fun _ => [];
     canWrite := fun _ => true |}.

Definition import_dq (spec : string) : Node :=
  ImportDeclaration (StringLiteral DoubleQuote spec).

Definition import_sq (spec : string) : Node :=
  ImportDeclaration (StringLiteral SingleQuote spec).

(** *** A project on a disk

    [/p/main.ts] imports [./a], [./lib] and the package [lodash];
    [/p/a.ts] imports [./main] and [./lib/index]; [/p/lib/index.ts]
    imports [../a.ts].  [/p/unused.ts] is imported by nobody. *)

Definition demo : Disk :=
  {| sources :=
       [("/p/main.ts",
         ("main", [import_dq "./a"; OtherNode; import_dq "./lib"; import_dq "lodash"]));
        ("/p/a.ts", ("a", [import_dq "./main"; import_dq "./lib/index"]));
        ("/p/lib/index.ts", ("lib", [import_dq "../a.ts"]));
        ("/p/unused.ts", ("unused", [import_dq "./a"]));
        ("/node_modules/lodash.js", ("lodash", []))];
     directories := ["/p"; "/p/lib"; "/node_modules"];
     manifests := [] |}.

Definition demo_world : World := world_of demo.

Definition demo_build : list Module * Globals :=
  match build demo_world 10 "/p/main.ts" with
  | Returns r => r
  | _ => ([], initial "")
  end.

Definition demo_modules : list Module := fst demo_build.
Definition demo_globals : Globals := snd demo_build.

(** *** A file and a directory of the same name

    Both [/p/foo.ts] and [/p/foo/index.ts] exist; [/p/bar] has only an
    index file. *)

Definition twins : Disk :=
  {| sources :=
       [("/p/main.ts", ("main", [import_dq "./foo"; import_dq "./bar"]));
        ("/p/foo.ts", ("foo", []));
        ("/p/foo/index.ts", ("foo index", []));
        ("/p/bar/index.ts", ("bar index", []))];
     directories := ["/p"; "/p/foo"; "/p/bar"];
     manifests := [] |}.

(** *** A project without a package directory above it

    [/p/main.ts] imports the package [lodash], and no directory from [/p]
    up to the root has a [node_modules] directory. *)

Definition bare : Disk :=
  {| sources := [("/p/main.ts", ("main", [import_dq "lodash"]))];
     directories := ["/"; "/p"];
     manifests := [] |}.

Definition command_line : list string := ["node"; "kidnap"; "p/main"; "-o"; "out.js"].

(** *** A project with an import that resolves to nothing

    The entry file imports [./a], and [/p/a.ts] imports [spec]; there are
    no other files, and no directory [node_modules]. *)

Definition missing (spec : string) : Disk :=
  {| sources := [("/p/main.ts", ("main", [import_dq "./a"]));
                 ("/p/a.ts", ("a", [import_dq spec]))];
     directories := ["/"; "/p"];
     manifests := [] |}.

(** *** A manifest that names a file that is not there *)

Definition ghost : Disk :=
  {| sources := [("/p/main.ts", ("main", [import_dq "left-pad"]))];
     directories := ["/"; "/p"; "/p/node_modules"; "/p/node_modules/left-pad"];
     manifests :=
       [("/p/node_modules/left-pad/package.json",
         {| pkg_module := Missing; pkg_main := Text "lib/missing.js" |})] |}.

(** *** Import declarations written with single quotes *)

Definition quoted (import : string -> Node) : Disk :=
  {| sources :=
       [("/p/main.ts", ("main", [import "./a"]));
        ("/p/a.ts", ("a", []))];
     directories := ["/"; "/p"];
     manifests := [] |}.

(** *** Bundles at run time

    [mutual]: module 0 requires [./b], reads its [y] and then sets its own
    [x]; module 1 requires [./a], copies the [x] it sees there to [seen]
    and sets [y].  [replacing]: module 0 requires [./r] twice and keeps
    both results; module 1 replaces [module.exports] by a new object. *)

Definition with_object (r : option Loader.value) (k : Loader.loc -> Loader.Body)
  (otherwise : Loader.Body) : Loader.Body :=
  match r with
  | Some (Loader.VObject l) => k l
  | Some _ => otherwise
  | None => Loader.Throw
  end.

Definition mutual : gmap nat Loader.Entry :=
  {[ 0 := {| Loader.factory := fun exports =>
               let finish := Loader.SetProp exports "x" (Loader.VNumber 1) Loader.Done in
               Loader.Require "./b" (fun r =>
               with_object r
                 (fun b => Loader.GetProp b "y" (fun y =>
                           Loader.SetProp exports "seen" y finish))
                 finish);
             Loader.table_deps := [("./b", 1)] |};
     1 := {| Loader.factory := fun exports =>
               let finish := Loader.SetProp exports "y" (Loader.VNumber 2) Loader.Done in
               Loader.Require "./a" (fun r =>
               with_object r
                 (fun a => Loader.GetProp a "x" (fun x =>
                           Loader.SetProp exports "seen" x finish))
                 finish);
             Loader.table_deps := [("./a", 0)] |} ]}.

Definition replacing : gmap nat Loader.Entry :=
  {[ 0 := {| Loader.factory := fun exports =>
               Loader.Require "./r" (fun first =>
               Loader.Require "./r" (fun second =>
               Loader.SetProp exports "first" (default Loader.VUndefined first)
               (Loader.SetProp exports "second" (default Loader.VUndefined second)
                  Loader.Done)));
             Loader.table_deps := [("./r", 1)] |};
     1 := {| Loader.factory := fun _ =>
               Loader.NewObject (fun fresh =>
               Loader.SetProp fresh "k" (Loader.VNumber 7)
               (Loader.SetModuleExports (Loader.VObject fresh) Loader.Done));
             Loader.table_deps := [] |} ]}.



(** *** A package directory nearer than the one that has the package

    [/p/node_modules] exists and is empty; [lodash] is in
    [/node_modules]. *)

Definition nested : Disk :=
  {| sources :=
       [("/p/main.ts", ("main", [import_dq "lodash"]));
        ("/node_modules/lodash.js", ("lodash", []))];
     directories := ["/"; "/p"; "/p/node_modules"; "/node_modules"];
     manifests := [] |}.

(** *** More vocabulary *)

(** The specifiers of the import declarations among [nodes], in order. *)
Definition specifiers (nodes : list Node) : list string :=
  omap (fun n => match n with
                 | ImportDeclaration e => JSON.parse (getText e)
                 | OtherNode => None
                 end) nodes.

(** The elements of [l], each once, in the order in which they first
    occur. *)
Definition first_occurrences (l : list string) : list string :=
  rev (remove_dups (rev l)).

(** The key that [generate] writes for a module. *)
Definition table_key (m : Module) : string := id_text (id m) +:+ ": [".

(** The cache holds objects of the heap, and a different one for each
    identity. *)
Definition separate (σ : Loader.Machine) : Prop :=
  (forall id l, Loader.executedModules σ !! id = Some l -> l < length (Loader.heap σ)) /\
  (forall id1 id2 l,
     Loader.executedModules σ !! id1 = Some l ->
     Loader.executedModules σ !! id2 = Some l -> id1 = id2).

(** *** A file that imports the same module twice *)

Definition repeated : Disk :=
  {| sources :=
       [("/p/main.ts",
         ("main", [import_dq "./b"; import_dq "./a"; OtherNode; import_dq "./b"]));
        ("/p/a.ts", ("a", []));
        ("/p/b.ts", ("b", []))];
     directories := ["/"; "/p"];
     manifests := [] |}.

(** *** Bundles that require paths their tables do not have

    Module 0 of [faulty] requires [./nope] twice, catches what the calls
    throw and keeps what they give: 0 for a call that threw.  Module 0 of
    [shadowed] has a dependency with the specifier [__proto__]; it
    requires that, the name [constructor] and [./nope]. *)

Definition caught (r : option Loader.value) : Loader.value :=
  default (Loader.VNumber 0) r.

Definition faulty : gmap nat Loader.Entry :=
  {[ 0 := {| Loader.factory := fun exports =>
               Loader.Require "./nope" (fun first =>
               Loader.Require "./nope" (fun second =>
               Loader.SetProp exports "first" (caught first)
               (Loader.SetProp exports "second" (caught second) Loader.Done)));
             Loader.table_deps := [] |} ]}.

Definition shadowed : gmap nat Loader.Entry :=
  {[ 0 := {| Loader.factory := fun exports =>
               Loader.Require "__proto__" (fun first =>
               Loader.Require "constructor" (fun second =>
               Loader.Require "./nope" (fun third =>
               Loader.SetProp exports "first" (caught first)
               (Loader.SetProp exports "second" (caught second)
               (Loader.SetProp exports "third" (caught third) Loader.Done)))));
             Loader.table_deps := [("__proto__", 1)] |};
     1 := {| Loader.factory := fun exports =>
               Loader.SetProp exports "ran" (Loader.VNumber 1) Loader.Done;
             Loader.table_deps := [] |} ]}.

(** *** Projects closed under their imports

    [closed_project w fuel universe] checks that every file of
    [universe] can be read and that each of its import declarations has a
    specifier that is a JSON string and resolves, with [fuel] for the walk
    of package resolution, to a file of [universe]. *)

Definition node_closed (w : World) (fuel : nat) (universe : list string)
  (p : string) (n : Node) : bool :=
  match n with
  | ImportDeclaration e =>
      match JSON.parse (getText e) with
      | Some dep =>
          match depPathOf w fuel dep p with
          | Returns q => member q universe
          | _ => false
          end
      | None => false
      end
  | OtherNode => true
  end.

Definition file_closed (w : World) (fuel : nat) (universe : list string)
  (p : string) : bool :=
  match readFile w p with
  | Some content => forallb (node_closed w fuel universe p) (createSourceFile w p content)
  | None => false
  end.

Definition closed_project (w : World) (fuel : nat) (universe : list string) : bool :=
  forallb (file_closed w fuel universe) universe.

(** The text that one module contributes to the bundle. *)
Definition module_text (m : Module) : string := result_text (generate_module m).

(** * Properties *)

(** ** Paths, by example *)

Example resolve_ex1 :
  Path.resolve "/w" ["/proj/src"; "./a/../b"] = "/proj/src/b".
Proof. reflexivity. Qed.

Example resolve_ex2 : Path.resolve "/w" ["lib//x/"] = "/w/lib/x".
Proof. reflexivity. Qed.

Example resolve_ex3 : Path.resolve "/w" ["/a"; "../../.."] = "/".
Proof. reflexivity. Qed.

Example dirname_ex1 : Path.dirname "/proj/src/main.ts" = "/proj/src".
Proof. reflexivity. Qed.

Example dirname_ex2 : Path.dirname "/proj" = "/".
Proof. reflexivity. Qed.

Example dirname_ex3 : Path.dirname "/" = "/".
Proof. reflexivity. Qed.

Example dirname_ex4 : Path.dirname "/a//b" = "/a/".
Proof. reflexivity. Qed.

Example dirname_ex5 : Path.dirname "//a" = "//".
Proof. reflexivity. Qed.

Example dirname_ex6 : Path.dirname "a/b/" = "a".
Proof. reflexivity. Qed.

(** ** Resolved paths are absolute *)

Lemma resolve_cons (cwd : string) (args : list string) :
  exists s, Path.resolve cwd args = String "/" s.
Proof. unfold Path.resolve, Str.of_chars. simpl. eauto. Qed.

Lemma resolve_absolute (cwd : string) (args : list string) :
  absolute (Path.resolve cwd args).
Proof.
  by destruct (resolve_cons cwd args) as (s & ->).
Qed.

Lemma absolute_append (a b : string) : absolute a -> absolute (a +:+ b).
Proof.
  unfold absolute, Str.startsWith. by destruct a as [| c a].
Qed.

Lemma absolute_nonempty (p : string) : absolute p -> p <> "".
Proof. intros H ->. discriminate. Qed.

Section ResolutionFacts.

Variable w : World.

Lemma tsPathOf_absolute (p : string) : absolute p -> absolute (tsPathOf p).
Proof.
  intros Hp. unfold tsPathOf. destruct (Str.endsWith p ".ts"); [done |].
  by apply absolute_append.
Qed.

Lemma localModulePath_absolute path from p :
  localModulePath w path from = Returns p -> absolute p.
Proof.
  unfold localModulePath. intros H.
  destruct (isFile w _).
  - inversion H; subst. apply tsPathOf_absolute.
    unfold absPathOf, resolve. destruct from as [f |]; [destruct (String.eqb f "") |];
      apply resolve_absolute.
  - destruct (_ && _); [| discriminate]. inversion H; subst. apply resolve_absolute.
Qed.

Lemma npmModulePath_absolute fuel pkg from p :
  npmModulePath w fuel pkg from = Returns p -> absolute p.
Proof.
  unfold npmModulePath. intros H.
  destruct (findProjRoot w fuel _) as [projRoot |]; [| discriminate].
  destruct (isFile w (_ +:+ ".js")).
  { inversion H; subst. apply absolute_append, resolve_absolute. }
  assert (Hidx : forall q,
    (if isFile w (resolve w [resolve w [projRoot; "node_modules"; pkg]; "index.js"])
     then Returns (resolve w [resolve w [projRoot; "node_modules"; pkg]; "index.js"])
     else error (cannot_find pkg)) = Returns q -> absolute q).
  { clear H. intros q Hq. destruct (isFile w _); [| discriminate].
    inversion Hq; subst. apply resolve_absolute. }
  destruct (isFile w _); [| by apply Hidx].
  destruct (require w _) as [manifest |]; [| discriminate].
  destruct (truthy _); [| by apply Hidx].
  destruct (or_else _ _); try discriminate.
  inversion H; subst. apply resolve_absolute.
Qed.

Lemma depPathOf_absolute fuel dep file p :
  depPathOf w fuel dep file = Returns p -> absolute p.
Proof.
  unfold depPathOf. destruct (Str.startsWith dep ".").
  - apply localModulePath_absolute.
  - apply npmModulePath_absolute.
Qed.

Lemma localModulePath_nonempty path from p :
  localModulePath w path from = Returns p -> p <> "".
Proof. eauto using absolute_nonempty, localModulePath_absolute. Qed.

Lemma depPathOf_nonempty fuel dep file p :
  depPathOf w fuel dep file = Returns p -> p <> "".
Proof. eauto using absolute_nonempty, depPathOf_absolute. Qed.

(** The walk of [npmModulePath] gives the same root whatever the fuel. *)
Lemma findProjRoot_det f1 f2 d r1 r2 :
  findProjRoot w f1 d = Some r1 -> findProjRoot w f2 d = Some r2 -> r1 = r2.
Proof.
  revert f2 d. induction f1 as [| f1 IH]; intros f2 d H1 H2; [discriminate |].
  destruct f2 as [| f2]; [discriminate |]. simpl in *.
  destruct (isDir w _); [congruence |]. eauto.
Qed.

Lemma npmModulePath_det f1 f2 pkg from p1 p2 :
  npmModulePath w f1 pkg from = Returns p1 ->
  npmModulePath w f2 pkg from = Returns p2 -> p1 = p2.
Proof.
  unfold npmModulePath. intros H1 H2.
  destruct (findProjRoot w f1 _) as [r1 |] eqn:E1; [| discriminate].
  destruct (findProjRoot w f2 _) as [r2 |] eqn:E2; [| discriminate].
  assert (r1 = r2) as -> by eauto using findProjRoot_det. congruence.
Qed.

Lemma depPathOf_det f1 f2 dep file p1 p2 :
  depPathOf w f1 dep file = Returns p1 ->
  depPathOf w f2 dep file = Returns p2 -> p1 = p2.
Proof.
  unfold depPathOf. destruct (Str.startsWith dep ".").
  - congruence.
  - apply npmModulePath_det.
Qed.

End ResolutionFacts.

(** ** The registry invariant

    [order] is the sequence of the paths discovered so far, those taken
    off the queue first and then the queue itself.  The registry maps the
    path at position [i] of that sequence to [i]. *)

Definition registry_ok (done : list string) (g : Globals) : Prop :=
  let order := done ++ files g in
  NoDup order /\
  length order = S (moduleId g) /\
  (forall p i, moduleToId g !! p = Some i <-> order !! i = Some p).

Definition nonempty_paths (l : list string) : Prop :=
  forall p, p ∈ l -> p <> "".

Lemma registry_ok_initial (entryFile : string) :
  registry_ok [] (initial entryFile).
Proof.
  unfold registry_ok, initial; simpl. split_and!.
  - apply NoDup_singleton.
  - done.
  - intros p i. split.
    + intros H. apply lookup_singleton_Some in H as [-> <-]. done.
    + intros H. destruct i as [| i]; simpl in H; [| by destruct i].
      inversion H; subst. apply lookup_singleton_eq.
Qed.

Lemma registry_ok_known done g p :
  registry_ok done g -> (is_Some (moduleToId g !! p) <-> p ∈ done ++ files g).
Proof.
  intros (_ & _ & Hreg). split.
  - intros [i Hi]. apply Hreg in Hi. by eapply list_elem_of_lookup_2.
  - intros Hp. apply list_elem_of_lookup in Hp as [i Hi]. exists i. by apply Hreg.
Qed.

(** Registering a path that is not known yet. *)
Lemma registry_ok_push done g p :
  registry_ok done g -> moduleToId g !! p = None ->
  registry_ok done
    {| moduleId := S (moduleId g);
       moduleToId := <[p := S (moduleId g)]> (moduleToId g);
       files := files g ++ [p] |}.
Proof.
  intros Hok Hnone.
  assert (Hfresh : p ∉ done ++ files g).
  { intros Hin. apply (registry_ok_known _ _ _ Hok) in Hin as [i Hi]. congruence. }
  destruct Hok as (Hnd & Hlen & Hreg).
  unfold registry_ok; simpl. rewrite app_assoc. split_and!.
  - apply NoDup_app. split_and!; [done | | apply NoDup_singleton].
    intros x Hx Hx'. apply list_elem_of_singleton in Hx' as ->. done.
  - rewrite length_app. simpl. lia.
  - intros q i. split.
    + intros H. destruct (decide (p = q)) as [<- | Hneq].
      * rewrite lookup_insert_eq in H. inversion H; subst.
        rewrite <- Hlen. rewrite lookup_app_r by lia.
        by rewrite Nat.sub_diag.
      * rewrite lookup_insert_ne in H by done.
        apply Hreg in H. by apply lookup_app_l_Some.
    + intros H. apply lookup_app_Some in H as [H | [Hge H]].
      * assert (p <> q).
        { intros <-. apply Hreg in H. congruence. }
        rewrite lookup_insert_ne by done. by apply Hreg.
      * apply list_lookup_singleton_Some in H as [Hi <-].
        assert (i = S (moduleId g)) as -> by lia.
        apply lookup_insert_eq.
Qed.

(** Taking the head off the queue. *)
Lemma registry_ok_shift done g file rest :
  registry_ok done g -> files g = file :: rest ->
  registry_ok (done ++ [file])
    {| moduleId := moduleId g; moduleToId := moduleToId g; files := rest |}.
Proof.
  unfold registry_ok; simpl. intros Hok Hq. rewrite Hq in Hok.
  by rewrite <- app_assoc.
Qed.

(** ** Dependency tables *)

Lemma map_get_set_eq deps key val : map_get (map_set deps key val) key = Some val.
Proof.
  induction deps as [| [k v] r IH]; simpl.
  - by rewrite String.eqb_refl.
  - destruct (String.eqb k key) eqn:E; simpl; rewrite E; done.
Qed.

Lemma map_get_set_ne deps key val key' :
  key <> key' -> map_get (map_set deps key val) key' = map_get deps key'.
Proof.
  intros Hne. induction deps as [| [k v] r IH]; simpl.
  - destruct (String.eqb_spec key key'); done.
  - destruct (String.eqb_spec k key) as [-> | Hk]; simpl.
    + destruct (String.eqb_spec key key'); done.
    + destruct (String.eqb_spec k key'); done.
Qed.

Lemma map_get_elem deps key val :
  map_get deps key = Some val -> (key, val) ∈ deps.
Proof.
  induction deps as [| [k v] r IH]; simpl; [done |].
  destruct (String.eqb_spec k key) as [-> | Hk].
  - intros [= ->]. apply list_elem_of_here.
  - intros H. apply list_elem_of_further. auto.
Qed.

Lemma map_set_keys deps key val :
  NoDup (map fst deps) -> NoDup (map fst (map_set deps key val)).
Proof.
  induction deps as [| [k v] r IH]; simpl; intros Hnd.
  - apply NoDup_singleton.
  - apply NoDup_cons in Hnd as [Hk Hr].
    destruct (String.eqb_spec k key) as [-> | Hne]; simpl.
    + by apply NoDup_cons.
    + apply NoDup_cons. split; [| auto].
      intros Hin. apply Hk. clear -Hin Hne.
      induction r as [| [k' v'] r IH]; simpl in *.
      * apply list_elem_of_singleton in Hin. congruence.
      * destruct (String.eqb_spec k' key) as [-> | Hne']; simpl in *; [done |].
        apply elem_of_cons in Hin as [-> | Hin]; [apply list_elem_of_here |].
        apply list_elem_of_further. auto.
Qed.

Lemma elem_map_get deps key val :
  NoDup (map fst deps) -> (key, val) ∈ deps -> map_get deps key = Some val.
Proof.
  induction deps as [| [k v] r IH]; simpl; intros Hnd Hin.
  - by apply elem_of_nil in Hin.
  - apply NoDup_cons in Hnd as [Hk Hr].
    apply elem_of_cons in Hin as [[= <- <-] | Hin].
    + by rewrite String.eqb_refl.
    + destruct (String.eqb_spec k key) as [-> | Hne]; [| auto].
      exfalso. apply Hk. apply list_elem_of_fmap. by exists (key, val).
Qed.

(** ** One file scanned *)

Section Scan.

Variable w : World.

(** The state of [compile] after the nodes [pre] of [file], when the queue
    was [queue0] before the scan and [done] had left it. *)
Definition scan_ok (file : string) (done queue0 : list string) (pre : list Node)
  (deps : list (string * nat)) (g : Globals) : Prop :=
  registry_ok done g /\
  nonempty_paths (done ++ files g) /\
  (exists added, files g = queue0 ++ added /\
     forall q, q ∈ added -> exists n, n ∈ pre /\ node_edge w file n q) /\
  (forall n q, n ∈ pre -> node_edge w file n q -> q ∈ done ++ files g) /\
  (forall dep i, map_get deps dep = Some i ->
     exists fuel q, depPathOf w fuel dep file = Returns q /\
                    (done ++ files g) !! i = Some q) /\
  (forall e dep, ImportDeclaration e ∈ pre -> JSON.parse (getText e) = Some dep ->
     is_Some (map_get deps dep)) /\
  NoDup (map fst deps).

Lemma scan_ok_start file done g :
  registry_ok done g -> nonempty_paths (done ++ files g) ->
  scan_ok file done (files g) [] [] g.
Proof.
  intros Hok Hnon. unfold scan_ok. split_and!; try done.
  - exists []. rewrite app_nil_r. split; [done |]. intros q Hq. by apply elem_of_nil in Hq.
  - intros n q Hn. by apply elem_of_nil in Hn.
  - intros e dep He. by apply elem_of_nil in He.
  - apply NoDup_nil_2.
Qed.

Lemma scan_ok_visit fuel file done queue0 pre deps g n deps' g' :
  scan_ok file done queue0 pre deps g ->
  visit w fuel file (deps, g) n = Returns (deps', g') ->
  scan_ok file done queue0 (pre ++ [n]) deps' g'.
Proof.
  intros (Hok & Hnon & (added & Hadd & Hnew) & Hedges & Hsound & Hcompl & Hkeys) Hv.
  destruct n as [e |]; simpl in Hv.
  2: { inversion Hv; subst. unfold scan_ok. split_and!; try done.
       - exists added. split; [done |]. intros q Hq.
         destruct (Hnew q Hq) as (n & Hn & He). exists n. split; [| done].
         apply elem_of_app; auto.
       - intros n q Hn He. apply elem_of_app in Hn as [Hn | Hn]; [eauto |].
         apply list_elem_of_singleton in Hn as ->.
         destruct He as (? & ? & ? & ? & _). discriminate.
       - intros e dep He. apply elem_of_app in He as [He | He]; [eauto |].
         apply list_elem_of_singleton in He. discriminate. }
  destruct (JSON.parse (getText e)) as [dep |] eqn:Hparse; [| discriminate].
  destruct (depPathOf w fuel dep file) as [depPath | |] eqn:Hres; simpl in Hv;
    try discriminate.
  assert (Hthis : forall q, node_edge w file (ImportDeclaration e) q -> q = depPath).
  { intros q (fuel' & e' & dep' & [= <-] & Hp' & Hr').
    rewrite Hparse in Hp'. inversion Hp'; subst. eauto using depPathOf_det. }
  assert (Hedge : node_edge w file (ImportDeclaration e) depPath).
  { exists fuel, e, dep. done. }
  unfold mbind, outcome_bind in Hv.
  destruct (moduleToId g !! depPath) as [depID |] eqn:Hreg.
  - inversion Hv; subst. clear Hv.
    assert (Hat : (done ++ files g') !! depID = Some depPath).
    { destruct Hok as (_ & _ & Hr). by apply Hr. }
    unfold scan_ok. split_and!; try done.
    + exists added. split; [done |]. intros q Hq.
      destruct (Hnew q Hq) as (n & Hn & He). exists n. split; [| done].
      apply elem_of_app; auto.
    + intros n q Hn He. apply elem_of_app in Hn as [Hn | Hn]; [eauto |].
      apply list_elem_of_singleton in Hn as ->. apply Hthis in He as ->.
      by eapply list_elem_of_lookup_2.
    + intros d i Hd. destruct (decide (dep = d)) as [<- | Hne].
      * rewrite map_get_set_eq in Hd. inversion Hd; subst. eauto.
      * rewrite map_get_set_ne in Hd by done. eauto.
    + intros e' d He' Hp'. destruct (decide (dep = d)) as [<- | Hne].
      * rewrite map_get_set_eq. eauto.
      * rewrite map_get_set_ne by done.
        apply elem_of_app in He' as [He' | He']; [eauto |].
        apply list_elem_of_singleton in He'. inversion He'; subst. congruence.
    + by apply map_set_keys.
  - inversion Hv; subst. clear Hv.
    assert (Hne : depPath <> "") by eauto using depPathOf_nonempty.
    pose proof (registry_ok_push _ _ _ Hok Hreg) as Hok'.
    assert (Hat : (done ++ files g ++ [depPath]) !! S (moduleId g) = Some depPath).
    { destruct Hok' as (_ & _ & Hr). apply Hr. simpl. apply lookup_insert_eq. }
    unfold scan_ok; simpl. split_and!; try done.
    + intros x Hx. rewrite app_assoc in Hx. apply elem_of_app in Hx as [Hx | Hx]; [auto |].
      apply list_elem_of_singleton in Hx as ->. done.
    + exists (added ++ [depPath]). rewrite Hadd, app_assoc. split; [done |].
      intros q Hq. apply elem_of_app in Hq as [Hq | Hq].
      * destruct (Hnew q Hq) as (n & Hn & He). exists n. split; [| done].
        apply elem_of_app; auto.
      * apply list_elem_of_singleton in Hq as ->. exists (ImportDeclaration e).
        split; [| done]. apply elem_of_app. right. apply list_elem_of_here.
    + intros n q Hn He. rewrite app_assoc. apply elem_of_app.
      apply elem_of_app in Hn as [Hn | Hn]; [left; eauto |].
      apply list_elem_of_singleton in Hn as ->. apply Hthis in He as ->.
      right. apply list_elem_of_here.
    + intros d i Hd. destruct (decide (dep = d)) as [<- | Hnd].
      * rewrite map_get_set_eq in Hd. inversion Hd; subst. eauto.
      * rewrite map_get_set_ne in Hd by done.
        destruct (Hsound d i Hd) as (f' & q & Hq & Hi). exists f', q. split; [done |].
        rewrite app_assoc. by apply lookup_app_l_Some.
    + intros e' d He' Hp'. destruct (decide (dep = d)) as [<- | Hnd].
      * rewrite map_get_set_eq. eauto.
      * rewrite map_get_set_ne by done.
        apply elem_of_app in He' as [He' | He']; [eauto |].
        apply list_elem_of_singleton in He'. inversion He'; subst. congruence.
    + by apply map_set_keys.
Qed.

Lemma scan_ok_forEachChild fuel file done queue0 nodes :
  forall pre deps g deps' g',
    scan_ok file done queue0 pre deps g ->
    forEachChild nodes (visit w fuel file) (deps, g) = Returns (deps', g') ->
    scan_ok file done queue0 (pre ++ nodes) deps' g'.
Proof.
  induction nodes as [| n nodes IH]; intros pre deps g deps' g' Hok Hrun;
    cbn [forEachChild] in Hrun.
  - inversion Hrun; subst. by rewrite app_nil_r.
  - destruct (visit w fuel file (deps, g) n) as [[deps1 g1] | |] eqn:Hv;
      cbn [mbind outcome_bind] in Hrun; try discriminate.
    replace (pre ++ n :: nodes) with ((pre ++ [n]) ++ nodes)
      by (by rewrite <- app_assoc).
    eapply IH; [| exact Hrun]. eauto using scan_ok_visit.
Qed.

End Scan.

(** ** The worklist *)

Section Worklist.

Variable w : World.

(** What holds of a module that [compile] returns, for the discovery
    sequence [order]: its dependency table has each specifier once, maps a
    specifier to the position of the path it resolves to, and has every
    specifier that an import declaration of the file gives; its body is
    the transpiled content of the file. *)
Definition module_ok (order : list string) (m : Module) : Prop :=
  NoDup (map fst (deps m)) /\
  (forall dep i, (dep, i) ∈ deps m ->
     exists fuel q, depPathOf w fuel dep (file m) = Returns q /\ order !! i = Some q) /\
  (exists content,
     readFile w (file m) = Some content /\
     transpiled m = transpileModule w content /\
     forall e dep, ImportDeclaration e ∈ createSourceFile w (file m) content ->
       JSON.parse (getText e) = Some dep -> is_Some (map_get (deps m) dep)).

Lemma module_ok_grows order extra m :
  module_ok order m -> module_ok (order ++ extra) m.
Proof.
  intros (Hk & Hs & Hc). split_and!; [done | | done].
  intros dep i Hin. destruct (Hs dep i Hin) as (fuel & q & Hq & Hi).
  exists fuel, q. split; [done |]. by apply lookup_app_l_Some.
Qed.

Lemma compile_ok fuel src done g m g' :
  registry_ok done g -> nonempty_paths (done ++ files g) ->
  compile w fuel src g = Returns (m, g') ->
  file m = src /\ id m = moduleToId g !! src /\
  exists content,
    readFile w src = Some content /\
    scan_ok w src done (files g) (createSourceFile w src content) (deps m) g' /\
    transpiled m = transpileModule w content.
Proof.
  intros Hok Hnon. unfold compile.
  destruct (readFile w src) as [content |] eqn:Hread; [| discriminate].
  destruct (forEachChild _ _ _) as [[deps' g1] | |] eqn:Hscan;
    cbn [mbind outcome_bind]; try discriminate.
  intros [= <- <-]. simpl. split_and!; try done.
  exists content. split_and!; try done.
  change (createSourceFile w src content)
    with ([] ++ createSourceFile w src content).
  eapply scan_ok_forEachChild; [| exact Hscan].
  by apply scan_ok_start.
Qed.

(** The loop invariant: [done] are the paths of the modules compiled so
    far, in order. *)
Definition build_ok (entryFile : string) (done : list string) (g : Globals)
  (modules : list Module) : Prop :=
  let order := done ++ files g in
  registry_ok done g /\
  nonempty_paths order /\
  map file modules = done /\
  order !! 0 = Some entryFile /\
  (forall p, p ∈ order -> rtc (import_edge w) entryFile p) /\
  (forall p q, p ∈ done -> import_edge w p q -> q ∈ order) /\
  (forall k m, modules !! k = Some m -> id m = Some k) /\
  (forall m, m ∈ modules -> module_ok order m) /\
  (forall k p, 1 <= k -> order !! k = Some p ->
     exists j r, j < length done /\ order !! j = Some r /\ import_edge w r p) /\
  (forall k1 k2 p1 p2 j2 r2,
     1 <= k1 <= k2 -> order !! k1 = Some p1 -> order !! k2 = Some p2 ->
     j2 < length done -> order !! j2 = Some r2 -> import_edge w r2 p2 ->
     exists j1 r1, j1 <= j2 /\ order !! j1 = Some r1 /\ import_edge w r1 p1).

Lemma build_ok_initial entryFile :
  entryFile <> "" -> build_ok entryFile [] (initial entryFile) [].
Proof.
  intros Hne. unfold build_ok; simpl. split_and!; try done.
  - apply registry_ok_initial.
  - intros p Hp. apply list_elem_of_singleton in Hp as ->. done.
  - intros p Hp. apply list_elem_of_singleton in Hp as ->. apply rtc_refl.
  - intros p q Hp. by apply elem_of_nil in Hp.
  - intros m Hm. by apply elem_of_nil in Hm.
  - intros k p Hk Hp. destruct k as [| k]; [lia | done].
  - intros k1 k2 p1 p2 j2 r2 Hk H1 H2 Hj. simpl in Hj. lia.
Qed.

Lemma build_ok_step fuel entryFile done g modules src rest m g' :
  build_ok entryFile done g modules ->
  files g = src :: rest ->
  compile w fuel src
    {| moduleId := moduleId g; moduleToId := moduleToId g; files := rest |}
    = Returns (m, g') ->
  build_ok entryFile (done ++ [src]) g' (modules ++ [m]).
Proof.
  intros (Hok & Hnon & Hfiles & Hhead & Hreach & Hclosed & Hids & Hmods & Hpar & Hbfs)
    Hq Hc.
  pose proof (registry_ok_shift _ _ _ _ Hok Hq) as Hok1.
  assert (Horder : done ++ files g = (done ++ [src]) ++ rest).
  { rewrite Hq. by rewrite <- app_assoc. }
  rewrite Horder in Hnon, Hhead, Hreach, Hclosed, Hmods, Hpar, Hbfs.
  destruct (compile_ok _ _ _ _ _ _ Hok1 Hnon Hc)
    as (Hfile & Hid & content & Hread & Hscan & Htr). simpl in *.
  destruct Hscan as (Hok' & Hnon' & (added & Hadd & Hnew) & Hedges & Hsound & Hcompl & Hkeys).
  assert (Hgrow : (done ++ [src]) ++ files g' = ((done ++ [src]) ++ rest) ++ added).
  { rewrite Hadd. by rewrite app_assoc. }
  assert (Hin_file : src ∈ (done ++ [src]) ++ rest).
  { apply elem_of_app. left. apply elem_of_app. right. apply list_elem_of_here. }
  unfold build_ok. split_and!; try done.
  - rewrite map_app, Hfiles. simpl. by rewrite Hfile.
  - rewrite Hgrow. by apply lookup_app_l_Some.
  - intros p Hp. rewrite Hgrow in Hp. apply elem_of_app in Hp as [Hp | Hp]; [auto |].
    destruct (Hnew p Hp) as (n & Hn & He).
    eapply rtc_r; [apply Hreach, Hin_file |].
    exists content, n. done.
  - intros p q Hp He. apply elem_of_app in Hp as [Hp | Hp].
    + rewrite Hgrow. apply elem_of_app. left. eauto.
    + apply list_elem_of_singleton in Hp as ->.
      destruct He as (content' & n & Hread' & Hn & He).
      rewrite Hread in Hread'. inversion Hread'; subst. eauto.
  - intros k m' Hk. apply lookup_app_Some in Hk as [Hk | [Hge Hk]]; [auto |].
    apply list_lookup_singleton_Some in Hk as [Hk <-].
    assert (Hlen : length modules = length done).
    { rewrite <- Hfiles. by rewrite length_map. }
    assert (k = length done) as -> by lia.
    rewrite Hid. destruct Hok1 as (_ & _ & Hr). apply Hr. simpl.
    rewrite <- app_assoc. rewrite lookup_app_r by lia.
    by rewrite Nat.sub_diag.
  - intros m' Hm'. rewrite Hgrow. apply elem_of_app in Hm' as [Hm' | Hm'].
    + apply module_ok_grows. auto.
    + apply list_elem_of_singleton in Hm' as ->. rewrite <- Hgrow.
      unfold module_ok. rewrite Hfile. split_and!; [done | |].
      * intros dep i Hin. apply Hsound. by apply elem_map_get.
      * exists content. split_and!; try done.
  - intros k p Hk Hp. rewrite Hgrow in Hp. rewrite Hgrow.
    apply lookup_app_Some in Hp as [Hp | [Hge Hp]].
    + destruct (Hpar k p Hk Hp) as (j & r & Hj & Hr & He).
      exists j, r. split_and!; [rewrite length_app; lia | | done].
      by apply lookup_app_l_Some.
    + destruct (Hnew p) as (n & Hn & He); [by eapply list_elem_of_lookup_2 |].
      exists (length done), src. split_and!.
      * rewrite length_app. simpl. lia.
      * apply lookup_app_l_Some. rewrite <- app_assoc.
        rewrite lookup_app_r by lia. by rewrite Nat.sub_diag.
      * exists content, n. done.
  - intros k1 k2 p1 p2 j2 r2 Hk H1 H2 Hj Hr He.
    rewrite Hgrow in H1, H2, Hr. rewrite Hgrow.
    rewrite length_app in Hj. simpl in Hj.
    assert (Hsrc_at : ((done ++ [src]) ++ rest) !! length done = Some src).
    { rewrite <- app_assoc. rewrite lookup_app_r by lia. by rewrite Nat.sub_diag. }
    assert (Hr_old : ((done ++ [src]) ++ rest) !! j2 = Some r2).
    { apply lookup_app_Some in Hr as [Hr | [Hge _]]; [done |].
      rewrite !length_app in Hge. simpl in Hge. lia. }
    assert (Hnd : NoDup (((done ++ [src]) ++ rest) ++ added)).
    { rewrite <- Hgrow. by destruct Hok' as (? & _). }
    assert (Hlate : length ((done ++ [src]) ++ rest) <= k2 -> j2 = length done).
    { intros Hge. destruct (decide (j2 = length done)) as [| Hne]; [done |].
      exfalso. assert (Hin : r2 ∈ done).
      { assert (j2 < length done) as Hlt by lia.
        apply lookup_lt_is_Some in Hlt as [x Hx].
        assert (((done ++ [src]) ++ rest) !! j2 = Some x) as Hx'.
        { rewrite <- app_assoc. by apply lookup_app_l_Some. }
        rewrite Hr_old in Hx'. inversion Hx'; subst.
        by eapply list_elem_of_lookup_2. }
      pose proof (Hclosed r2 p2 Hin He) as Hold.
      apply list_elem_of_lookup in Hold as [i Hi].
      pose proof (lookup_lt_Some _ _ _ Hi) as Hilt.
      assert ((((done ++ [src]) ++ rest) ++ added) !! i = Some p2) as Hi'
        by (by apply lookup_app_l_Some).
      pose proof (NoDup_lookup _ _ _ _ Hnd Hi' H2). lia. }
    assert (Hearly : forall k p, 1 <= k ->
              ((done ++ [src]) ++ rest) !! k = Some p ->
              exists j1 r1,
                (((done ++ [src]) ++ rest) ++ added) !! j1 = Some r1 /\
                import_edge w r1 p /\ j1 < length done).
    { intros k p Hk1 Hp. destruct (Hpar k p Hk1 Hp) as (j & r & Hjl & Hjr & Hje).
      exists j, r. split_and!; try done.
      by apply lookup_app_l_Some. }
    apply lookup_app_Some in H2 as [H2 | [Hge2 H2]].
    + (* the later path was known before this file was scanned *)
      assert (H1' : ((done ++ [src]) ++ rest) !! k1 = Some p1).
      { apply lookup_app_Some in H1 as [H1 | [Hge1 _]]; [done |].
        apply lookup_lt_Some in H2. lia. }
      destruct (decide (j2 < length done)) as [Hlt | Hnlt].
      * destruct (Hbfs k1 k2 p1 p2 j2 r2 Hk H1' H2 Hlt Hr_old He)
          as (j1 & r1 & Hle & Hr1 & He1).
        exists j1, r1. split_and!; try done. by apply lookup_app_l_Some.
      * destruct (Hearly k1 p1 (proj1 Hk) H1') as (j1 & r1 & Hr1 & He1 & Hlt1).
        exists j1, r1. split_and!; try done. lia.
    + (* the later path was found while this file was scanned *)
      pose proof (Hlate Hge2) as ->.
      apply lookup_app_Some in H1 as [H1 | [Hge1 H1]].
      * destruct (Hearly k1 p1 (proj1 Hk) H1) as (j1 & r1 & Hr1 & He1 & Hlt1).
        exists j1, r1. split_and!; try done. lia.
      * destruct (Hnew p1) as (n & Hn & Hen); [by eapply list_elem_of_lookup_2 |].
        exists (length done), src. split_and!; [done | | ].
        -- by apply lookup_app_l_Some.
        -- exists content, n. done.
Qed.

Lemma build_loop_ok fuel entryFile :
  forall done g modules modules' g',
    build_ok entryFile done g modules ->
    build_loop w fuel g modules = Returns (modules', g') ->
    build_ok entryFile (map file modules') g' modules' /\ files g' = [].
Proof.
  induction fuel as [| fuel IH]; intros done g modules modules' g' Hinv Hrun;
    [discriminate |].
  cbn [build_loop] in Hrun.
  destruct (files g) as [| src rest] eqn:Hq.
  - inversion Hrun; subst. split; [| done].
    pose proof Hinv as (_ & _ & Hf & _). by rewrite Hf.
  - assert (Hne : src <> "").
    { destruct Hinv as (_ & Hnon & _). apply Hnon. rewrite Hq.
      apply elem_of_app. right. apply list_elem_of_here. }
    destruct (String.eqb_spec src ""); [done |].
    destruct (compile w fuel src _) as [[m g2] | |] eqn:Hc;
      cbn [mbind outcome_bind] in Hrun; try discriminate.
    eapply IH; [| exact Hrun]. eauto using build_ok_step.
Qed.

Lemma build_ok_result fuel entryFile modules g :
  entryFile <> "" ->
  build w fuel entryFile = Returns (modules, g) ->
  build_ok entryFile (map file modules) g modules /\ files g = [].
Proof.
  intros Hne Hrun. eapply build_loop_ok; [| exact Hrun].
  by apply build_ok_initial.
Qed.

End Worklist.

(** ** The states of the registry during a build *)

Section Registry.

Variable w : World.

Lemma registry_ok_visit fuel src done deps g node deps' g' :
  registry_ok done g ->
  visit w fuel src (deps, g) node = Returns (deps', g') ->
  registry_ok done g' /\ exists added, files g' = files g ++ added.
Proof.
  intros Hok Hv. destruct node as [e |]; simpl in Hv.
  2: { inversion Hv; subst. split; [done |]. exists []. by rewrite app_nil_r. }
  destruct (JSON.parse (getText e)) as [dep |]; [| discriminate].
  destruct (depPathOf w fuel dep src) as [depPath | |];
    cbn [mbind outcome_bind] in Hv; try discriminate.
  destruct (moduleToId g !! depPath) as [depID |] eqn:Hreg; inversion Hv; subst.
  - split; [done |]. exists []. by rewrite app_nil_r.
  - split; [by apply registry_ok_push |]. by exists [depPath].
Qed.

Lemma reached_registry_ok entryFile g :
  reached w entryFile g ->
  exists done, registry_ok done g /\ (done ++ files g) !! 0 = Some entryFile.
Proof.
  induction 1 as [| g src rest _ (done & Hok & Hhead) Hq
                  | g fuel src deps node deps' g' _ (done & Hok & Hhead) Hv].
  - exists []. split; [apply registry_ok_initial | done].
  - exists (done ++ [src]). split; [by apply registry_ok_shift |]. simpl.
    rewrite Hq in Hhead. by rewrite <- app_assoc.
  - destruct (registry_ok_visit _ _ _ _ _ _ _ _ Hok Hv) as (Hok' & added & Hadd).
    exists done. split; [done |]. rewrite Hadd, app_assoc.
    by apply lookup_app_l_Some.
Qed.

Lemma registry_ok_bijection entryFile done g :
  registry_ok done g -> (done ++ files g) !! 0 = Some entryFile ->
  is_bijection entryFile g.
Proof.
  intros (Hnd & Hlen & Hreg) Hhead. unfold is_bijection. split_and!.
  - by apply Hreg.
  - intros p i Hp. apply Hreg in Hp. apply lookup_lt_Some in Hp. lia.
  - intros i Hi. assert (i < length (done ++ files g)) as Hlt by lia.
    apply lookup_lt_is_Some in Hlt as [p Hp]. exists p. by apply Hreg.
  - intros p q i Hp Hq. apply Hreg in Hp, Hq. congruence.
Qed.

Lemma forEachChild_reached entryFile fuel src nodes :
  forall deps g deps' g',
    reached w entryFile g ->
    forEachChild nodes (visit w fuel src) (deps, g) = Returns (deps', g') ->
    reached w entryFile g'.
Proof.
  induction nodes as [| n nodes IH]; intros deps g deps' g' Hr Hrun;
    cbn [forEachChild] in Hrun.
  - by inversion Hrun; subst.
  - destruct (visit w fuel src (deps, g) n) as [[deps1 g1] | |] eqn:Hv;
      cbn [mbind outcome_bind] in Hrun; try discriminate.
    eapply IH; [| exact Hrun]. eauto using reached_visit.
Qed.

Lemma compile_reached entryFile fuel src g m g' :
  reached w entryFile g -> compile w fuel src g = Returns (m, g') ->
  reached w entryFile g'.
Proof.
  intros Hr. unfold compile. destruct (readFile w src); [| discriminate].
  destruct (forEachChild _ _ _) as [[deps' g1] | |] eqn:Hscan;
    cbn [mbind outcome_bind]; try discriminate.
  intros [= <- <-]. eauto using forEachChild_reached.
Qed.

Lemma build_loop_reached entryFile fuel :
  forall g modules modules' g',
    reached w entryFile g ->
    build_loop w fuel g modules = Returns (modules', g') ->
    reached w entryFile g'.
Proof.
  induction fuel as [| fuel IH]; intros g modules modules' g' Hr Hrun;
    [discriminate |].
  cbn [build_loop] in Hrun. destruct (files g) as [| src rest] eqn:Hq.
  - by inversion Hrun; subst.
  - pose proof (reached_shift _ _ _ _ _ Hr Hq) as Hr1.
    destruct (String.eqb src ""); [by inversion Hrun; subst |].
    destruct (compile w fuel src _) as [[m g2] | |] eqn:Hc;
      cbn [mbind outcome_bind] in Hrun; try discriminate.
    eapply IH; [| exact Hrun]. eauto using compile_reached.
Qed.

Lemma reached_absolute entryFile g :
  absolute entryFile -> reached w entryFile g ->
  forall p i, moduleToId g !! p = Some i -> absolute p.
Proof.
  intros Habs. induction 1 as [| g src rest _ IH Hq
                               | g fuel src deps node deps' g' _ IH Hv]; simpl.
  - intros p i Hp. by apply lookup_singleton_Some in Hp as [<- _].
  - done.
  - destruct node as [e |]; simpl in Hv; [| by inversion Hv; subst].
    destruct (JSON.parse (getText e)) as [dep |]; [| discriminate].
    destruct (depPathOf w fuel dep src) as [depPath | |] eqn:Hd;
      cbn [mbind outcome_bind] in Hv; try discriminate.
    destruct (moduleToId g !! depPath) as [depID |] eqn:Hreg; inversion Hv; subst;
      [done |].
    simpl. intros p i Hp. apply lookup_insert_Some in Hp as [[<- _] | [_ Hp]]; [| eauto].
    eauto using depPathOf_absolute.
Qed.

(** With an empty entry path the loop stops at once. *)
Lemma build_empty_entry fuel modules g :
  build w fuel "" = Returns (modules, g) -> modules = [].
Proof.
  destruct fuel as [| fuel]; [discriminate |]. unfold build. simpl. congruence.
Qed.

End Registry.

(** ** The module graph *)

Section Graph.

Variable w : World.

(** C1: when the build succeeds, the files of the modules handed to the
    generator are exactly the files reachable from the entry file through
    chains of resolved import declarations, each once. *)
Theorem bundle_is_import_closure (fuel : nat) (inp entryFile : string)
  (modules : list Module) (g : Globals) :
  localModulePath w inp None = Returns entryFile ->
  build w fuel entryFile = Returns (modules, g) ->
  NoDup (map file modules) /\
  (forall p, p ∈ map file modules <-> rtc (import_edge w) entryFile p).
Proof.
  intros Hentry Hrun.
  assert (Hne : entryFile <> "") by eauto using localModulePath_nonempty.
  destruct (build_ok_result w fuel entryFile modules g Hne Hrun)
    as ((Hok & _ & _ & Hhead & Hreach & Hclosed & _) & Hq).
  unfold registry_ok in Hok. rewrite Hq, app_nil_r in *. split.
  - by destruct Hok as (Hnd & _).
  - intros p. split; [apply Hreach |].
    intros Hp. revert p Hp. apply rtc_ind_r.
    + by eapply list_elem_of_lookup_2.
    + eauto.
Qed.

(** C2: in every state of a build the registry is a bijection between
    the registered paths, which are absolute when the entry file is, and
    the identities [0 .. moduleId], with the entry file at [0]; when the
    build returns, the module at position [k]
    has identity [k] and its file is registered under [k], and two entries
    of dependency tables carry the same identity exactly when their
    specifiers resolve to the same path. *)
Theorem registry_is_bijection (entryFile : string) :
  (forall g, reached w entryFile g ->
     is_bijection entryFile g /\
     (absolute entryFile -> forall p i, moduleToId g !! p = Some i -> absolute p)) /\
  (forall fuel modules g,
     build w fuel entryFile = Returns (modules, g) ->
     reached w entryFile g /\
     (forall k m, modules !! k = Some m ->
        id m = Some k /\ moduleToId g !! file m = Some k) /\
     (forall m1 m2 dep1 dep2 i1 i2 fuel1 fuel2 q1 q2,
        m1 ∈ modules -> m2 ∈ modules ->
        (dep1, i1) ∈ deps m1 -> (dep2, i2) ∈ deps m2 ->
        depPathOf w fuel1 dep1 (file m1) = Returns q1 ->
        depPathOf w fuel2 dep2 (file m2) = Returns q2 ->
        moduleToId g !! q1 = Some i1 /\ moduleToId g !! q2 = Some i2 /\
        (q1 = q2 <-> i1 = i2))).
Proof.
  split.
  - intros g Hr. destruct (reached_registry_ok w entryFile g Hr) as (done & Hok & Hhead).
    split; [eauto using registry_ok_bijection |].
    intros Habs. by apply (reached_absolute w entryFile).
  - intros fuel modules g Hrun.
    assert (Hr : reached w entryFile g).
    { eapply build_loop_reached; [apply reached_initial | exact Hrun]. }
    split; [done |].
    destruct (decide (entryFile = "")) as [-> | Hne].
    { apply build_empty_entry in Hrun as ->. split.
      - intros k m Hk. done.
      - intros m1 m2 ? ? ? ? ? ? ? ? Hm1. by apply elem_of_nil in Hm1. }
    destruct (build_ok_result w fuel entryFile modules g Hne Hrun)
      as ((Hok & _ & Hfiles & _ & _ & _ & Hids & Hmods & _) & Hq).
    unfold registry_ok in Hok. rewrite Hq, app_nil_r in *.
    destruct Hok as (Hnd & _ & Hreg). split.
    + intros k m Hk. split; [auto |]. apply Hreg.
      by rewrite list_lookup_fmap, Hk.
    + intros m1 m2 dep1 dep2 i1 i2 fuel1 fuel2 q1 q2 Hm1 Hm2 Hd1 Hd2 Hq1 Hq2.
      destruct (Hmods m1 Hm1) as (_ & Hs1 & _).
      destruct (Hmods m2 Hm2) as (_ & Hs2 & _).
      destruct (Hs1 dep1 i1 Hd1) as (f1 & r1 & Hr1 & Hi1).
      destruct (Hs2 dep2 i2 Hd2) as (f2 & r2 & Hr2 & Hi2).
      assert (r1 = q1) as -> by eauto using depPathOf_det.
      assert (r2 = q2) as -> by eauto using depPathOf_det.
      split_and!; [by apply Hreg | by apply Hreg |]. split.
      * intros ->. eauto using NoDup_lookup.
      * intros ->. congruence.
Qed.

End Graph.

(** The demonstration project builds; its unused file stays out. *)
Lemma demo_entry : localModulePath demo_world "p/main" None = Returns "/p/main.ts".
Proof. vm_compute. reflexivity. Qed.

Lemma demo_builds :
  build demo_world 10 "/p/main.ts" = Returns (demo_modules, demo_globals).
Proof. vm_compute. reflexivity. Qed.

Lemma demo_files :
  map file demo_modules
  = ["/p/main.ts"; "/p/a.ts"; "/p/lib/index.ts"; "/node_modules/lodash.js"].
Proof. vm_compute. reflexivity. Qed.

Lemma bundle_is_import_closure_witness :
  NoDup (map file demo_modules) /\
  (forall p, p ∈ map file demo_modules
             <-> rtc (import_edge demo_world) "/p/main.ts" p).
Proof.
  apply (bundle_is_import_closure demo_world 10 "p/main" "/p/main.ts"
           demo_modules demo_globals).
  - vm_compute. reflexivity.
  - vm_compute. reflexivity.
Defined.

Lemma registry_is_bijection_witness :
  is_bijection "/p/main.ts" demo_globals /\
  (forall p i, moduleToId demo_globals !! p = Some i -> absolute p) /\
  (forall k m, demo_modules !! k = Some m ->
     id m = Some k /\ moduleToId demo_globals !! file m = Some k).
Proof.
  destruct (registry_is_bijection demo_world "/p/main.ts") as [Hall Hend].
  destruct (Hend 10 demo_modules demo_globals) as (Hr & Hpos & _).
  - vm_compute. reflexivity.
  - destruct (Hall demo_globals Hr) as (Hbij & Habs).
    split_and!; [exact Hbij | by apply Habs | exact Hpos].
Defined.

(** ** Facts about paths *)

Section PathFacts.

Import Str Path.

Lemma prefixb_app (p r : list ascii) : prefixb p (p ++ r) = true.
Proof.
  induction p as [| a p IH]; simpl; [done |].
  by rewrite Ascii.eqb_refl, IH.
Qed.

Lemma prefixb_inv (p l : list ascii) :
  prefixb p l = true -> exists r, l = p ++ r.
Proof.
  revert l. induction p as [| a p IH]; intros l H; simpl in *; [by exists l |].
  destruct l as [| c l]; [discriminate |].
  apply andb_true_iff in H as [Hc Hp]. apply Ascii.eqb_eq in Hc as ->.
  destruct (IH l Hp) as [r ->]. by exists r.
Qed.

Lemma chars_of_chars (cs : list ascii) : chars (of_chars cs) = cs.
Proof. apply list_ascii_of_string_of_list_ascii. Qed.

Lemma of_chars_chars (s : string) : of_chars (chars s) = s.
Proof. apply string_of_list_ascii_of_string. Qed.

Lemma chars_append (a b : string) : chars (a +:+ b) = chars a ++ chars b.
Proof. induction a as [| c a IH]; simpl; [done |]. by rewrite <- IH. Qed.

Lemma endsWith_inv (s suffix : string) :
  endsWith s suffix = true -> exists pre, chars s = pre ++ chars suffix.
Proof.
  unfold endsWith. intros H. apply prefixb_inv in H as [r Hr].
  exists (rev r). apply (f_equal (@rev ascii)) in Hr.
  rewrite rev_involutive in Hr. rewrite Hr, rev_app_distr. by rewrite rev_involutive.
Qed.

Lemma endsWith_intro (pre : list ascii) (suffix : string) :
  endsWith (of_chars (pre ++ chars suffix)) suffix = true.
Proof.
  unfold endsWith. rewrite chars_of_chars, rev_app_distr. apply prefixb_app.
Qed.

Lemma segments_last (cs : list ascii) :
  exists init l, segments cs = init ++ [l].
Proof.
  induction cs as [| c cs (init & l & IH)]; simpl.
  - by exists [], [].
  - destruct (is_slash c).
    + exists ([] :: init), l. by rewrite IH.
    + rewrite IH. destruct init as [| s init]; simpl.
      * by exists [], (c :: l).
      * by exists ((c :: s) :: init), l.
Qed.

Lemma segments_app_slash (a b : list ascii) :
  segments (a ++ slash :: b) = segments a ++ segments b.
Proof.
  induction a as [| c a IH]; simpl; [done |].
  destruct (is_slash c); [by rewrite IH |].
  rewrite IH. destruct (segments_last a) as (init & l & ->).
  by destruct init.
Qed.

(** Characters without a separator extend the last piece. *)
Lemma segments_app_plain (a b : list ascii) init l :
  segments a = init ++ [l] -> forallb (fun c => negb (is_slash c)) b = true ->
  segments (a ++ b) = init ++ [l ++ b].
Proof.
  revert init l. induction a as [| c a IH]; intros init l Ha Hb; simpl in *.
  - destruct init as [| ? [| ? ?]]; try discriminate. inversion Ha; subst. simpl.
    clear Ha. induction b as [| c b IHb]; simpl; [done |].
    simpl in Hb. apply andb_true_iff in Hb as [Hc Hb].
    apply negb_true_iff in Hc. rewrite Hc. by rewrite (IHb Hb).
  - destruct (is_slash c).
    + destruct init as [| s init]; simpl in Ha.
      { inversion Ha. destruct (segments_last a) as (? & ? & E). rewrite E in *.
        by destruct x. }
      inversion Ha; subst. by rewrite (IH init l).
    + destruct (segments_last a) as (init' & l' & E). rewrite E in Ha.
      rewrite (IH init' l' E Hb).
      destruct init' as [| s' init']; simpl in *.
      * destruct init as [| ? [| ? ?]]; try discriminate. by inversion Ha; subst.
      * destruct init as [| s init]; simpl in Ha.
        { inversion Ha. by destruct init'. }
        inversion Ha as [[Hs Hrest]].
        apply app_inj_tail in Hrest as [-> ->]. done.
Qed.

Lemma join_snoc (sep : list ascii) (parts : list (list ascii)) (s : list ascii) :
  exists pre, join sep (parts ++ [s]) = pre ++ s.
Proof.
  induction parts as [| p parts (pre & IH)]; simpl.
  - by exists [].
  - rewrite IH. destruct (parts ++ [s]) eqn:E.
    + by destruct parts.
    + exists (p ++ sep ++ pre). by rewrite <- !app_assoc.
Qed.

(** Every piece that [gather] takes is followed by a separator, and the
    last argument, when it is not empty, is the last piece. *)
Lemma gather_last (cwd : list ascii) (rest : list (list ascii)) (c : ascii) (p : list ascii) :
  exists x, gather cwd ((c :: p) :: rest) = x ++ (c :: p) ++ [slash].
Proof.
  simpl. destruct (is_slash c).
  - by exists [].
  - by exists (gather cwd rest).
Qed.

Lemma norm_step_keeps (stack : list (list ascii)) (seg : list ascii) :
  3 <= length seg -> norm_step stack seg = seg :: stack.
Proof.
  intros Hlen. unfold norm_step, seg_eqb.
  repeat case_bool_decide; subst; simpl in Hlen; try lia. done.
Qed.

(** A path whose last argument ends in three characters that are not
    separators resolves to a path that ends in them. *)
Lemma resolve_keeps_suffix (cwd : string) (args : list string) (path suffix : string) :
  length (chars suffix) = 3 ->
  forallb (fun c => negb (is_slash c)) (chars suffix) = true ->
  endsWith path suffix = true ->
  endsWith (Path.resolve cwd (args ++ [path])) suffix = true.
Proof.
  intros Hlen Hplain Hends. apply endsWith_inv in Hends as [pre Hpre].
  unfold Path.resolve.
  assert (rev (map chars (args ++ [path])) = chars path :: rev (map chars args)) as ->
    by (by rewrite map_app, rev_app_distr).
  rewrite Hpre.
  destruct (pre ++ chars suffix) as [| c p] eqn:Hp.
  { apply (f_equal (@length ascii)) in Hp. rewrite length_app in Hp. simpl in Hp. lia. }
  destruct (gather_last (chars cwd) (rev (map chars args)) c p) as [x ->].
  rewrite <- Hp. clear Hp Hpre c p.
  replace (x ++ (pre ++ chars suffix) ++ [slash])
    with ((x ++ pre ++ chars suffix) ++ slash :: []) by (by rewrite <- !app_assoc).
  rewrite segments_app_slash. cbn [segments].
  destruct (segments_last (x ++ pre)) as (init & l & Hseg).
  rewrite app_assoc. rewrite (segments_app_plain _ _ _ _ Hseg Hplain).
  unfold normalize. rewrite <- app_assoc, fold_left_app. cbn [fold_left app].
  rewrite (norm_step_keeps _ (l ++ chars suffix)) by (rewrite length_app; lia).
  unfold norm_step at 1. cbn [seg_eqb bool_decide decide_rel]. simpl rev.
  destruct (join_snoc [slash] (rev (fold_left norm_step init [])) (l ++ chars suffix))
    as [pre' ->].
  change (slash :: pre' ++ l ++ chars suffix) with ((slash :: pre') ++ l ++ chars suffix).
  rewrite app_assoc. apply endsWith_intro.
Qed.

End PathFacts.

(** ** Relative resolution *)

Section Relative.

Variable w : World.

Lemma absPathOf_args path from :
  exists args, absPathOf w path from = Path.resolve (cwd w) (args ++ [path]).
Proof.
  unfold absPathOf, resolve. destruct from as [f |].
  - destruct (String.eqb f ""); [by exists [] | by exists [Path.dirname f]].
  - by exists [].
Qed.

(** C6: for a specifier [path] imported from [from], with [absPath] the
    specifier resolved against the directory of [from]: the first
    candidate is [absPath] with [.ts] appended unless it ends in [.ts]
    already, and it wins whenever it is a file, whatever else exists; the
    index file of the directory [absPath] is taken only when the first
    candidate is not a file; with neither the module is not found; and a
    specifier that ends in [.ts] gets no second extension. *)
Theorem relative_resolution_precedence (path : string) (from : option string) :
  let absPath := absPathOf w path from in
  let first := tsPathOf absPath in
  let indexPath := resolve w [absPath; "index.ts"] in
  (from <> None -> from <> Some "" ->
   absPath = resolve w [Path.dirname (default "" from); path]) /\
  (Str.endsWith absPath ".ts" = false -> first = absPath +:+ ".ts") /\
  (Str.endsWith path ".ts" = true -> first = absPath) /\
  (isFile w first = true -> localModulePath w path from = Returns first) /\
  (isFile w first = false -> isDir w absPath = true -> isFile w indexPath = true ->
   localModulePath w path from = Returns indexPath) /\
  (isFile w first = false -> isDir w absPath && isFile w indexPath = false ->
   localModulePath w path from = error (cannot_find path)).
Proof.
  intros absPath first indexPath. split_and!.
  - intros Hsome Hne. subst absPath. unfold absPathOf.
    destruct from as [f |]; [| done]. simpl.
    destruct (String.eqb_spec f ""); [congruence | done].
  - intros Hno. subst first. unfold tsPathOf. by rewrite Hno.
  - intros Hext. subst first absPath. unfold tsPathOf.
    destruct (absPathOf_args path from) as [args ->].
    by rewrite (resolve_keeps_suffix (cwd w) args path ".ts").
  - intros Hf. unfold localModulePath. fold absPath. fold first. by rewrite Hf.
  - intros Hf Hd Hi. unfold localModulePath. fold absPath. fold first.
    fold indexPath. by rewrite Hf, Hd, Hi.
  - intros Hf Hno. unfold localModulePath. fold absPath. fold first.
    fold indexPath. by rewrite Hf, Hno.
Qed.

End Relative.

Lemma relative_resolution_precedence_witness :
  localModulePath (world_of twins) "./foo" (Some "/p/main.ts") = Returns "/p/foo.ts" /\
  localModulePath (world_of twins) "./bar" (Some "/p/main.ts")
  = Returns "/p/bar/index.ts" /\
  tsPathOf (absPathOf (world_of twins) "./foo.ts" (Some "/p/main.ts")) = "/p/foo.ts".
Proof.
  split_and!.
  - apply (relative_resolution_precedence (world_of twins) "./foo" (Some "/p/main.ts")).
    vm_compute. reflexivity.
  - apply (relative_resolution_precedence (world_of twins) "./bar" (Some "/p/main.ts"));
      vm_compute; reflexivity.
  - apply (relative_resolution_precedence (world_of twins) "./foo.ts" (Some "/p/main.ts")).
    vm_compute. reflexivity.
Defined.

(** ** Package resolution *)

Section Package.

Variable w : World.

(** Relative resolution always ends: it returns a path or reports that
    the module cannot be found. *)
Lemma localModulePath_total path from :
  (exists p, localModulePath w path from = Returns p) \/
  localModulePath w path from = error (cannot_find path).
Proof.
  unfold localModulePath. destruct (isFile w _); [eauto |].
  destruct (_ && _); eauto.
Qed.

(** Once the walk has found a root, package resolution ends. *)
Lemma npmModulePath_ends fuel pkg from projRoot :
  findProjRoot w fuel (Path.dirname from) = Some projRoot ->
  npmModulePath w fuel pkg from <> OutOfFuel.
Proof.
  unfold npmModulePath. intros ->.
  repeat (match goal with
          | |- context [if ?b then _ else _] => destruct b
          | |- context [match ?o with Some _ => _ | None => _ end] => destruct o
          | |- context [match ?f with Text _ => _ | _ => _ end] => destruct f
          end; try discriminate).
Qed.

(** The walk ends when some ancestor has a [node_modules] directory. *)
Lemma findProjRoot_found k :
  forall d,
    isDir w (resolve w [Nat.iter k Path.dirname d; "node_modules"]) = true ->
    exists projRoot, findProjRoot w (S k) d = Some projRoot.
Proof.
  induction k as [| k IH]; intros d Hk; cbn [findProjRoot].
  - simpl in Hk. rewrite Hk. eauto.
  - destruct (isDir w (resolve w [d; "node_modules"])); [eauto |].
    apply IH. by rewrite <- Nat.iter_succ_r.
Qed.

(** At a directory that is its own parent and has no [node_modules]
    directory, the walk goes on for ever. *)
Lemma findProjRoot_stuck d :
  Path.dirname d = d ->
  isDir w (resolve w [d; "node_modules"]) = false ->
  forall fuel, findProjRoot w fuel d = None.
Proof.
  intros Hfix Hno. induction fuel as [| fuel IH]; simpl; [done |].
  by rewrite Hno, Hfix.
Qed.

Lemma findProjRoot_none k :
  forall d,
    (forall j, j < k ->
       isDir w (resolve w [Nat.iter j Path.dirname d; "node_modules"]) = false) ->
    Path.dirname (Nat.iter k Path.dirname d) = Nat.iter k Path.dirname d ->
    isDir w (resolve w [Nat.iter k Path.dirname d; "node_modules"]) = false ->
    forall fuel, findProjRoot w fuel d = None.
Proof.
  induction k as [| k IH]; intros d Hbelow Hfix Htop fuel.
  - by apply findProjRoot_stuck.
  - destruct fuel as [| fuel]; [done |]. cbn [findProjRoot].
    pose proof (Hbelow 0 ltac:(lia)) as H0. simpl in H0. rewrite H0. apply IH.
    + intros j Hj. rewrite <- Nat.iter_succ_r. apply Hbelow. lia.
    + by rewrite <- !Nat.iter_succ_r.
    + by rewrite <- Nat.iter_succ_r.
Qed.

Lemma visit_out_of_fuel fuel src deps g e dep :
  JSON.parse (getText e) = Some dep ->
  depPathOf w fuel dep src = OutOfFuel ->
  visit w fuel src (deps, g) (ImportDeclaration e) = OutOfFuel.
Proof. intros Hp Hd. simpl. by rewrite Hp, Hd. Qed.

Lemma compile_first_import fuel src g content e rest :
  readFile w src = Some content ->
  createSourceFile w src content = ImportDeclaration e :: rest ->
  forall f, visit w fuel src ([], g) (ImportDeclaration e) = Aborts f ->
            compile w fuel src g = Aborts f.
Proof.
  intros Hr Hs f Hv. unfold compile. rewrite Hr, Hs. cbn [forEachChild].
  by rewrite Hv.
Qed.

Lemma compile_first_import_loops fuel src g content e rest :
  readFile w src = Some content ->
  createSourceFile w src content = ImportDeclaration e :: rest ->
  visit w fuel src ([], g) (ImportDeclaration e) = OutOfFuel ->
  compile w fuel src g = OutOfFuel.
Proof.
  intros Hr Hs Hv. unfold compile. rewrite Hr, Hs. cbn [forEachChild].
  by rewrite Hv.
Qed.

(** What [main] does up to the graph builder, when the input resolves and
    the type check is clean. *)
Lemma main_runs_build fuel argv inp rest entryFile :
  argv = "node" :: "kidnap" :: inp :: rest -> inp <> "" ->
  localModulePath w inp None = Returns entryFile ->
  getPreEmitDiagnostics w entryFile = [] ->
  (build w fuel entryFile = OutOfFuel -> main w fuel argv = None) /\
  (forall f, build w fuel entryFile = Aborts f -> main w fuel argv = Some (die [] f)).
Proof.
  intros -> Hne Hentry Hdiag.
  assert (Hin : input (parse_argv 0 ("node" :: "kidnap" :: inp :: rest)
                         {| input := None; output := None |}) = Some inp).
  { cbn [parse_argv Nat.eqb String.eqb Ascii.eqb Bool.eqb input output].
    assert (Hkeep : forall l i o, 3 <= i -> input (parse_argv i l o) = input o).
    { induction l as [| v l IH]; intros i o Hi; cbn [parse_argv]; [done |].
      rewrite IH by lia. destruct (Nat.eqb_spec i 2); [lia |].
      by destruct (String.eqb v "-o"). }
    rewrite Hkeep by lia. by destruct (String.eqb inp "-o"). }
  unfold main. rewrite Hin. destruct (String.eqb_spec inp ""); [done |].
  rewrite Hentry, Hdiag. split.
  - by intros ->.
  - by intros f ->.
Qed.

End Package.

(** C4, on the code: for the project [bare], whose entry file imports a
    package while no directory up to the root has a [node_modules]
    directory, the walk of [npmModulePath] never leaves its loop: whatever
    the fuel, the resolution does not return and does not fail, and
    neither does the program. *)
Theorem package_walk_never_ends :
  (forall fuel, npmModulePath (world_of bare) fuel "lodash" "/p/main.ts" = OutOfFuel) /\
  (forall fuel, main (world_of bare) fuel command_line = None).
Proof.
  assert (Hwalk : forall fuel,
            npmModulePath (world_of bare) fuel "lodash" "/p/main.ts" = OutOfFuel).
  { intros fuel. unfold npmModulePath.
    change (Path.dirname "/p/main.ts") with "/p".
    rewrite (findProjRoot_none (world_of bare) 1 "/p"); [done | | |].
    - intros j Hj. assert (j = 0) as -> by lia. vm_compute. reflexivity.
    - vm_compute. reflexivity.
    - vm_compute. reflexivity. }
  split; [exact Hwalk |]. intros fuel.
  eapply (main_runs_build (world_of bare) fuel command_line "p/main");
    [reflexivity | discriminate | vm_compute; reflexivity | reflexivity |].
  destruct fuel as [| fuel]; [reflexivity |].
  unfold build. cbn [build_loop initial files].
  change (String.eqb "/p/main.ts" "") with false. cbn iota.
  erewrite compile_first_import_loops; [reflexivity | | |].
  - vm_compute. reflexivity.
  - vm_compute. reflexivity.
  - apply visit_out_of_fuel with (dep := "lodash"); [vm_compute; reflexivity |].
    unfold depPathOf. change (Str.startsWith "lodash" ".") with false. cbn iota.
    apply Hwalk.
Qed.

(** The same import resolves as soon as some directory on the way up has
    a [node_modules] directory. *)
Lemma demo_package_resolves :
  npmModulePath demo_world 2 "lodash" "/p/main.ts" = Returns "/node_modules/lodash.js".
Proof. vm_compute. reflexivity. Qed.

Section Manifest.

Variable w : World.

(** C10: when the manifest of a package has a [module] or [main] entry,
    package resolution returns that entry resolved against the package
    directory, without looking whether a file is there; if none is, the
    failure is the one of reading the file, in [compile]. *)
Theorem manifest_entry_not_checked (fuel : nat) (pkg from projRoot : string)
  (manifest : PackageJSON) (entry : string) :
  let pkgRoot := resolve w [projRoot; "node_modules"; pkg] in
  let target := resolve w [pkgRoot; entry] in
  findProjRoot w fuel (Path.dirname from) = Some projRoot ->
  isFile w (pkgRoot +:+ ".js") = false ->
  isFile w (resolve w [pkgRoot; "package.json"]) = true ->
  require w (resolve w [pkgRoot; "package.json"]) = Some manifest ->
  or_else (pkg_module manifest) (pkg_main manifest) = Text entry ->
  entry <> "" ->
  npmModulePath w fuel pkg from = Returns target /\
  (readFile w target = None ->
   forall fuel' g, compile w fuel' target g = Aborts (Uncaught ReadError)).
Proof.
  intros pkgRoot target Hroot Hjs Hpj Hreq Hmain Hne. split.
  - unfold npmModulePath. rewrite Hroot. fold pkgRoot. rewrite Hjs, Hpj, Hreq, Hmain.
    simpl. destruct (String.eqb_spec entry ""); done.
  - intros Hread fuel' g. unfold compile. by rewrite Hread.
Qed.

End Manifest.

Lemma manifest_entry_not_checked_witness :
  npmModulePath (world_of ghost) 1 "left-pad" "/p/main.ts"
  = Returns "/p/node_modules/left-pad/lib/missing.js" /\
  isFile (world_of ghost) "/p/node_modules/left-pad/lib/missing.js" = false /\
  main (world_of ghost) 3 command_line = Some (die [] (Uncaught ReadError)).
Proof.
  split_and!.
  - apply (manifest_entry_not_checked (world_of ghost) 1 "left-pad" "/p/main.ts" "/p"
             {| pkg_module := Missing; pkg_main := Text "lib/missing.js" |}
             "lib/missing.js"); vm_compute; (reflexivity || discriminate).
  - vm_compute. reflexivity.
  - vm_compute. reflexivity.
Defined.

(** ** Module specifiers *)

(** A text that does not begin, after white space, with a double quote
    is not a JSON string. *)
Lemma parse_needs_double_quote (text : string) :
  match JSON.skip_ws (Str.chars text) with
  | c :: _ => Ascii.eqb c JSON.dquote = false
  | [] => True
  end ->
  JSON.parse text = None.
Proof.
  unfold JSON.parse. destruct (JSON.skip_ws (Str.chars text)) as [| c cs]; [done |].
  by intros ->.
Qed.

Lemma string_body_plain (cs rest : list ascii) :
  forallb plain cs = true ->
  JSON.string_body (cs ++ JSON.dquote :: rest) = Some (map JSON.Raw cs, rest).
Proof.
  induction cs as [| c cs IH]; intros Hp.
  - reflexivity.
  - simpl in Hp. apply andb_true_iff in Hp as [Hc Hcs].
    unfold plain in Hc. apply andb_true_iff in Hc as [Hc H32].
    apply andb_true_iff in Hc as [Hq Hb].
    apply negb_true_iff in Hq, Hb, H32.
    cbn [JSON.string_body app]. rewrite Hq, Hb, H32, (IH Hcs). reflexivity.
Qed.

Lemma encode_raw (cs : list ascii) : JSON.encode (map JSON.Raw cs) = cs.
Proof. induction cs as [| c cs IH]; simpl; [done |]. by rewrite IH. Qed.

(** A string literal in double quotes whose characters stand for
    themselves is read as written. *)
Lemma parse_double_quoted (raw : string) :
  forallb plain (Str.chars raw) = true ->
  JSON.parse (getText (StringLiteral DoubleQuote raw)) = Some raw.
Proof.
  intros Hp. unfold JSON.parse, getText, quote_mark.
  change (String JSON.dquote "" +:+ raw +:+ String JSON.dquote "")
    with (String JSON.dquote (raw +:+ String JSON.dquote "")).
  cbn [Str.chars list_ascii_of_string JSON.skip_ws].
  change (JSON.is_ws JSON.dquote) with false. cbn iota.
  rewrite Ascii.eqb_refl.
  change (list_ascii_of_string (raw +:+ String JSON.dquote ""))
    with (Str.chars (raw +:+ String JSON.dquote "")).
  rewrite chars_append. change (Str.chars (String JSON.dquote "")) with [JSON.dquote].
  rewrite (string_body_plain _ [] Hp). cbn [JSON.skip_ws].
  by rewrite encode_raw, of_chars_chars.
Qed.

(** A module specifier that is not a string literal ends the build: its
    text does not begin with a quote, so [JSON.parse] does not give a
    string. *)
Lemma computed_specifier_aborts (w : World) fuel src deps g (text : string) :
  match JSON.skip_ws (Str.chars text) with
  | c :: _ => Ascii.eqb c JSON.dquote = false
  | [] => True
  end ->
  visit w fuel src (deps, g) (ImportDeclaration (OtherExpression text))
  = Aborts (Uncaught SpecifierError).
Proof.
  intros H. simpl. by rewrite (parse_needs_double_quote text H).
Qed.

(** C5, on the code: a module specifier that is a string literal in
    single quotes ends the build with the exception of a specifier that
    is no string: the project [quoted import_sq] does not build, and the
    same project with its import in double quotes does. *)
Theorem single_quoted_specifier_aborts :
  (forall (w : World) fuel src deps g raw,
     visit w fuel src (deps, g) (import_sq raw) = Aborts (Uncaught SpecifierError)) /\
  (forall fuel,
     main (world_of (quoted import_sq)) (S fuel) command_line
     = Some (die [] (Uncaught SpecifierError))) /\
  exitCode <$> main (world_of (quoted import_dq)) 3 command_line = Some 0.
Proof.
  assert (Hv : forall (w : World) fuel src deps g raw,
            visit w fuel src (deps, g) (import_sq raw)
            = Aborts (Uncaught SpecifierError)).
  { intros. unfold import_sq. cbn [visit].
    by rewrite (parse_needs_double_quote (getText (StringLiteral SingleQuote raw))). }
  split_and!; [exact Hv | | vm_compute; reflexivity].
  intros fuel.
  eapply (main_runs_build (world_of (quoted import_sq)) (S fuel) command_line "p/main");
    [reflexivity | discriminate | vm_compute; reflexivity | reflexivity |].
  unfold build. cbn [build_loop initial files].
  change (String.eqb "/p/main.ts" "") with false. cbn iota.
  erewrite compile_first_import; [reflexivity | | | apply Hv].
  - vm_compute. reflexivity.
  - vm_compute. reflexivity.
Qed.

(** ** The module table

    First, what [JSON.stringify] writes is read back by the reader of
    string literals. *)

Lemma push_some it l rest :
  JSON.push it (Some (l, rest)) = Some (it :: l, rest).
Proof. reflexivity. Qed.

(** One character of a string, quoted and read back. *)
Lemma quote_step (c : ascii) (cs rest : list ascii) :
  N_of_ascii c <> 237%N ->
  exists it,
    JSON.string_body (JSON.quote_chars (c :: cs) ++ rest)
    = JSON.push it (JSON.string_body (JSON.quote_chars cs ++ rest)) /\
    forall items, JSON.encode (it :: items) = c :: JSON.encode items.
Proof.
  intros Hc.
  destruct c as [[] [] [] [] [] [] [] []];
    try (exfalso; apply Hc; reflexivity);
    (eexists; split;
     [cbn; reflexivity | intros [| [] items]; reflexivity]).
Qed.

(** A string without the byte 237, quoted and read back up to the
    closing quote. *)
Lemma string_body_quote (cs rest : list ascii) :
  forallb (fun c => negb (N_of_ascii c =? 237)%N) cs = true ->
  exists items,
    JSON.string_body (JSON.quote_chars cs ++ JSON.dquote :: rest) = Some (items, rest) /\
    JSON.encode items = cs.
Proof.
  induction cs as [| c cs IH]; intros Hs; simpl in Hs.
  - exists []. split; reflexivity.
  - apply andb_true_iff in Hs as [Hc Hcs]. apply negb_true_iff, N.eqb_neq in Hc.
    destruct (IH Hcs) as (items & Hb & He).
    destruct (quote_step c cs (JSON.dquote :: rest) Hc) as (it & Hstep & Henc).
    exists (it :: items). rewrite Hstep, Hb, push_some, Henc, He. done.
Qed.

(** The line that [generate] writes for a dependency, read back: the key
    denotes the specifier, and the value is the identity in decimal
    digits. *)
Lemma read_property_generate_dep (dep : string) (i : nat) :
  forallb (fun c => negb (N_of_ascii c =? 237)%N) (Str.chars dep) = true ->
  read_property (generate_dep (dep, i)) = Some (dep, pretty i).
Proof.
  intros Hdep.
  destruct (string_body_quote (Str.chars dep)
              (Str.chars ": " ++ Str.chars (pretty i) ++ Str.chars ",") Hdep)
    as (items & Hb & He).
  unfold read_property, generate_dep, JSON.stringify. cbn [fst snd].
  rewrite !chars_append, chars_of_chars. cbn [app].
  rewrite Ascii.eqb_refl, <- app_assoc. cbn [app]. rewrite Hb.
  change (Str.chars ": ") with [":"%char; " "%char]. cbn [app].
  change (Str.chars ",") with [","%char].
  rewrite rev_app_distr. cbn [rev app].
  by rewrite He, rev_involutive, !of_chars_chars.
Qed.

Section Table.

Variable w : World.

(** C7: the queue is first in, first out, so the module at position [k]
    of the list handed to the generator is the [k]-th path registered and
    has identity [k], and the list is in breadth-first order: of two
    modules, the earlier one has an importer at or before every importer
    of the later one.  The generator emits one table entry per module, in
    that order, keyed by the identity and holding the transpiled body in a
    factory and the dependency table: one line for each specifier of the
    module, in their order, made of the specifier as a JSON string, a
    colon and the identity of the module that the specifier resolves to.
    Read back as a property of an object literal, the line of a
    specifier without the byte 237 gives the specifier and that
    identity. *)
Theorem module_table_in_identity_order (fuel : nat) (inp entryFile : string)
  (modules : list Module) (g : Globals) :
  localModulePath w inp None = Returns entryFile ->
  build w fuel entryFile = Returns (modules, g) ->
  map id modules = map Some (seq 0 (length modules)) /\
  (forall k m, modules !! k = Some m -> moduleToId g !! file m = Some k) /\
  (forall k1 k2 m1 m2 j2 n2,
     1 <= k1 <= k2 ->
     modules !! k1 = Some m1 -> modules !! k2 = Some m2 ->
     modules !! j2 = Some n2 -> import_edge w (file n2) (file m2) ->
     exists j1 n1, j1 <= j2 /\ modules !! j1 = Some n1 /\
                   import_edge w (file n1) (file m1)) /\
  generate modules
  = [";(function (modules) {"; prelude; "})({"]
    ++ flat_map generate_module modules ++ ["})"] /\
  (forall k m, modules !! k = Some m ->
     exists content,
       readFile w (file m) = Some content /\
       generate_module m
       = [pretty k +:+ ": ["; "function (require, module, exports) {";
          transpileModule w content; "}, {"]
         ++ map (fun d => JSON.stringify (fst d) +:+ ": " +:+ pretty (snd d) +:+ ",")
              (deps m)
         ++ ["}"; "],"] /\
       (forall dep i, (dep, i) ∈ deps m ->
          forallb (fun c => negb (N_of_ascii c =? 237)%N) (Str.chars dep) = true ->
          read_property (JSON.stringify dep +:+ ": " +:+ pretty i +:+ ",")
          = Some (dep, pretty i)) /\
       NoDup (map fst (deps m)) /\
       (forall dep i, (dep, i) ∈ deps m ->
          exists fuel' m', depPathOf w fuel' dep (file m) = Returns (file m') /\
                           modules !! i = Some m') /\
       (forall e dep,
          ImportDeclaration e ∈ createSourceFile w (file m) content ->
          JSON.parse (getText e) = Some dep -> is_Some (map_get (deps m) dep))).
Proof.
  intros Hentry Hrun.
  assert (Hne : entryFile <> "") by eauto using localModulePath_nonempty.
  destruct (build_ok_result w fuel entryFile modules g Hne Hrun)
    as ((Hok & _ & _ & _ & _ & _ & Hids & Hmods & _ & Hbfs) & Hq).
  unfold registry_ok in Hok. rewrite Hq, app_nil_r in *.
  destruct Hok as (_ & _ & Hreg).
  assert (Hat : forall k m, modules !! k = Some m -> map file modules !! k = Some (file m)).
  { intros k m Hk. by rewrite list_lookup_fmap, Hk. }
  assert (Hback : forall k p, map file modules !! k = Some p ->
                    exists m, modules !! k = Some m /\ file m = p).
  { intros k p Hk. rewrite list_lookup_fmap in Hk.
    destruct (modules !! k) as [m |]; [| done]. inversion Hk. eauto. }
  split_and!.
  - apply list_eq. intros k. rewrite !list_lookup_fmap.
    destruct (modules !! k) as [m |] eqn:Hk; simpl.
    + rewrite (Hids k m Hk). pose proof (lookup_lt_Some _ _ _ Hk).
      by rewrite lookup_seq_lt.
    + apply lookup_ge_None in Hk. by rewrite lookup_seq_ge.
  - intros k m Hk. apply Hreg. auto.
  - intros k1 k2 m1 m2 j2 n2 Hk H1 H2 Hj He.
    destruct (Hbfs k1 k2 (file m1) (file m2) j2 (file n2)) as (j1 & r1 & Hle & Hr1 & He1);
      auto.
    { rewrite length_map. by eapply lookup_lt_Some. }
    destruct (Hback j1 r1 Hr1) as (n1 & Hn1 & <-). eauto.
  - done.
  - intros k m Hk.
    destruct (Hmods m) as (Hkeys & Hsound & content & Hread & Htr & Hcompl);
      [by eapply list_elem_of_lookup_2 |].
    exists content. split_and!; try done.
    + unfold generate_module. by rewrite (Hids k m Hk), Htr.
    + intros dep i _ Hdep. by apply (read_property_generate_dep dep i).
    + intros dep i Hin. destruct (Hsound dep i Hin) as (fuel' & q & Hq' & Hi).
      destruct (Hback i q Hi) as (m' & Hm' & <-). eauto.
Qed.

End Table.

Lemma module_table_in_identity_order_witness :
  map id demo_modules = map Some (seq 0 (length demo_modules)) /\
  generate demo_modules
  = [";(function (modules) {"; prelude; "})({"]
    ++ flat_map generate_module demo_modules ++ ["})"] /\
  exists m,
    demo_modules !! 0 = Some m /\
    generate_module m
    = ["0: ["; "function (require, module, exports) {"; "main"; "}, {";
       JSON.stringify "./a" +:+ ": 1,";
       JSON.stringify "./lib" +:+ ": 2,";
       JSON.stringify "lodash" +:+ ": 3,";
       "}"; "],"] /\
    read_property (JSON.stringify "lodash" +:+ ": " +:+ pretty 3 +:+ ",")
    = Some ("lodash", "3").
Proof.
  destruct (module_table_in_identity_order demo_world 10 "p/main" "/p/main.ts"
              demo_modules demo_globals) as (H1 & _ & _ & H4 & H5).
  - vm_compute. reflexivity.
  - vm_compute. reflexivity.
  - split_and!; [exact H1 | exact H4 |].
    destruct (demo_modules !! 0) as [m |] eqn:Hm; [| vm_compute in Hm; discriminate].
    exists m. split; [reflexivity |].
    destruct (H5 0 m Hm) as (content & Hread & Hgen & Hback & _).
    split.
    + rewrite Hgen. vm_compute in Hm. injection Hm as <-.
      vm_compute in Hread. injection Hread as <-. vm_compute. reflexivity.
    + apply (Hback "lodash" 3); [| reflexivity].
      vm_compute in Hm. injection Hm as <-. vm_compute.
      apply list_elem_of_In. simpl. auto.
Defined.

(** ** The program as a whole *)

Section Program.

Variable w : World.

Lemma die_status out f :
  exitCode (die out f) = 1 /\ written (die out f) = [] /\ stderr (die out f) <> [].
Proof. by destruct f. Qed.

(** The runs of [main] that end: a failure writes nothing. *)
Lemma main_cases fuel argv p :
  main w fuel argv = Some p ->
  (exists out f, p = die out f) \/
  (exitCode p = 0 /\ stderr p = [] /\
   exists out entryFile modules g,
     build w fuel entryFile = Returns (modules, g) /\
     getPreEmitDiagnostics w entryFile = [] /\
     canWrite w out = true /\
     written p = [(out, result_text (generate modules))]).
Proof.
  unfold main. cbv zeta.
  destruct (input _) as [inp |];
    [| intros Hp; left; exists [], (Exit1 "No input is provided."); congruence].
  destruct (String.eqb inp "");
    [intros Hp; left; exists [], (Exit1 "No input is provided."); congruence |].
  destruct (localModulePath w inp None) as [entryFile | f |];
    [| intros Hp; left; exists [], f; congruence | discriminate].
  destruct (getPreEmitDiagnostics w entryFile) as [| d ds] eqn:Hdiag;
    [| intros Hp; left; exists (d :: ds), (Exit1 "Type check Error."); congruence].
  destruct (build w fuel entryFile) as [[modules g] | f |] eqn:Hb;
    [| intros Hp; left; exists [], f; congruence | discriminate].
  destruct (output _) as [out |];
    [| intros Hp; left; exists [], (Uncaught WriteError); congruence].
  destruct (canWrite w out) eqn:Hw;
    [| intros Hp; left; exists [], (Uncaught WriteError); congruence].
  intros [= <-]. right. simpl. split_and!; try done.
  by exists out, entryFile, modules, g.
Qed.

(** The failures that the program detects: a run that ends with a
    failure has exit status 1, a message on the error stream and no file
    written, and a file is written only by a run with exit status 0.  The
    failures are: no input; an entry file that does not resolve;
    diagnostics of the type check; any failure of the graph builder; an
    output that cannot be written. *)
Lemma failure_writes_nothing (fuel : nat) (argv : list string) :
  let opt := parse_argv 0 argv {| input := None; output := None |} in
  (forall p, main w fuel argv = Some p ->
     (exitCode p <> 0 -> exitCode p = 1 /\ written p = [] /\ stderr p <> []) /\
     (written p <> [] -> exitCode p = 0)) /\
  (input opt = None \/ input opt = Some "" ->
   main w fuel argv = Some (die [] (Exit1 "No input is provided."))) /\
  (forall inp, input opt = Some inp -> inp <> "" ->
     (forall f, localModulePath w inp None = Aborts f ->
        main w fuel argv = Some (die [] f)) /\
     (forall entryFile, localModulePath w inp None = Returns entryFile ->
        (getPreEmitDiagnostics w entryFile <> [] ->
         main w fuel argv
         = Some (die (getPreEmitDiagnostics w entryFile) (Exit1 "Type check Error."))) /\
        (getPreEmitDiagnostics w entryFile = [] ->
         (forall f, build w fuel entryFile = Aborts f ->
            main w fuel argv = Some (die [] f)) /\
         (forall modules g, build w fuel entryFile = Returns (modules, g) ->
            (output opt = None \/
             exists out, output opt = Some out /\ canWrite w out = false) ->
            main w fuel argv = Some (die [] (Uncaught WriteError)))))).
Proof.
  intros opt. split_and!.
  - intros p Hp. destruct (main_cases fuel argv p Hp)
      as [(out & f & ->) | (H0 & He & out & ? & ? & ? & _ & _ & _ & Hw)].
    + destruct (die_status out f) as (H1 & H2 & H3). rewrite H1, H2. split; [done |].
      intros H. done.
    + split; [intros H; congruence | done].
  - unfold main. cbv zeta. fold opt. intros [-> | ->]; done.
  - intros inp Hin Hne. unfold main. cbv zeta. fold opt. rewrite Hin.
    destruct (String.eqb_spec inp ""); [done |]. split.
    + by intros f ->.
    + intros entryFile ->. split.
      * intros Hd. by destruct (getPreEmitDiagnostics w entryFile).
      * intros ->. split; [by intros f -> |].
        intros modules g -> [-> | (out & -> & ->)]; done.
Qed.

End Program.

Lemma unreadable_file_fails :
  exists p, main (world_of ghost) 3 command_line = Some p /\
            exitCode p = 1 /\ written p = [] /\ stderr p <> [].
Proof.
  exists (die [] (Uncaught ReadError)).
  assert (Hrun : main (world_of ghost) 3 command_line
                 = Some (die [] (Uncaught ReadError))) by (vm_compute; reflexivity).
  split; [exact Hrun |].
  destruct (failure_writes_nothing (world_of ghost) 3 command_line) as (Hall & _).
  destruct (Hall _ Hrun) as (Hfail & _). apply Hfail. vm_compute. discriminate.
Qed.

(** C8, on the code: in the project [missing "left-pad"] the second file
    imports a package and no directory has a [node_modules] directory,
    so the specifier resolves to nothing.  The graph builder compiles the
    entry file and then neither returns nor fails, whatever the fuel: the
    program does not end, with no exit status at all.  The same project
    with a relative specifier that resolves to nothing ends as the claim
    says: exit status 1, the message of [error], no file written. *)
Theorem unresolved_package_does_not_abort :
  (forall fuel, build (world_of (missing "left-pad")) fuel "/p/main.ts" = OutOfFuel) /\
  (forall fuel, main (world_of (missing "left-pad")) fuel command_line = None) /\
  (forall fuel, 2 <= fuel ->
     main (world_of (missing "./left-pad")) fuel command_line
     = Some {| stdout := []; stderr := [Message (cannot_find "./left-pad")];
               exitCode := 1; written := [] |}).
Proof.
  set (w := world_of (missing "left-pad")).
  assert (Hwalk : forall fuel, npmModulePath w fuel "left-pad" "/p/a.ts" = OutOfFuel).
  { intros fuel. unfold npmModulePath.
    change (Path.dirname "/p/a.ts") with "/p".
    rewrite (findProjRoot_none w 1 "/p"); [done | | |].
    - intros j Hj. assert (j = 0) as -> by lia. vm_compute. reflexivity.
    - vm_compute. reflexivity.
    - vm_compute. reflexivity. }
  assert (Hbuild : forall fuel, build w fuel "/p/main.ts" = OutOfFuel).
  { intros [| [| fuel]]; [reflexivity | vm_compute; reflexivity |].
    unfold build. cbn [build_loop initial files].
    change (String.eqb "/p/main.ts" "") with false. cbn iota.
    destruct (compile w (S fuel) "/p/main.ts" _) as [[m g] | f |] eqn:Hmain;
      [| vm_compute in Hmain; discriminate | vm_compute in Hmain; discriminate].
    assert (Hq : files g = ["/p/a.ts"]).
    { vm_compute in Hmain. by injection Hmain as <- <-. }
    cbn [mbind outcome_bind]. cbn [build_loop]. rewrite Hq.
    change (String.eqb "/p/a.ts" "") with false. cbn iota.
    erewrite compile_first_import_loops; [reflexivity | | |].
    - vm_compute. reflexivity.
    - vm_compute. reflexivity.
    - apply visit_out_of_fuel with (dep := "left-pad"); [vm_compute; reflexivity |].
      unfold depPathOf. change (Str.startsWith "left-pad" ".") with false. cbn iota.
      apply Hwalk. }
  split_and!; [exact Hbuild | |].
  - intros fuel.
    eapply (main_runs_build w fuel command_line "p/main");
      [reflexivity | discriminate | vm_compute; reflexivity | reflexivity |].
    apply Hbuild.
  - intros fuel Hfuel.
    set (w' := world_of (missing "./left-pad")).
    assert (Hfail : build w' fuel "/p/main.ts"
                    = Aborts (Exit1 (cannot_find "./left-pad"))).
    { destruct fuel as [| [| fuel]]; [lia | lia |].
      unfold build. cbn [build_loop initial files].
      change (String.eqb "/p/main.ts" "") with false. cbn iota.
      destruct (compile w' (S fuel) "/p/main.ts" _) as [[m g] | f |] eqn:Hmain;
        [| vm_compute in Hmain; discriminate | vm_compute in Hmain; discriminate].
      assert (Hq : files g = ["/p/a.ts"]).
      { vm_compute in Hmain. by injection Hmain as <- <-. }
      cbn [mbind outcome_bind]. cbn [build_loop]. rewrite Hq.
      change (String.eqb "/p/a.ts" "") with false. cbn iota.
      erewrite compile_first_import; [reflexivity | | |].
      - vm_compute. reflexivity.
      - vm_compute. reflexivity.
      - vm_compute. reflexivity. }
    destruct (main_runs_build w' fuel command_line "p/main" ["-o"; "out.js"] "/p/main.ts")
      as (_ & Hab); [reflexivity | discriminate | vm_compute; reflexivity | reflexivity |].
    by rewrite (Hab _ Hfail).
Qed.

(** ** The loader *)

Section LoaderFacts.

Import Loader.

Variable modules : gmap nat Entry.

Lemma later_refl σ : later σ σ.
Proof. unfold later. auto. Qed.

Lemma later_trans σ1 σ2 σ3 : later σ1 σ2 -> later σ2 σ3 -> later σ1 σ3.
Proof. unfold later. intros (? & ? & ?) (? & ? & ?). split_and!; [auto | lia | lia]. Qed.

Lemma later_set_prop σ o key v : later σ (set_prop σ o key v).
Proof. unfold later, set_prop; simpl. rewrite length_alter. auto. Qed.

Lemma later_new_object σ : later σ (new_object σ).2.
Proof. unfold later, new_object; simpl. rewrite length_app. split_and!; [auto | lia | lia]. Qed.

Lemma run_later exec tbl :
  (forall id σ c σ', exec id σ = Some (c, σ') -> later σ σ') ->
  forall b mexports σ c σ',
    run exec tbl b mexports σ = Some (c, σ') -> later σ σ'.
Proof.
  intros Hexec. induction b as [| | path k IH | o key k IH | o key v k IH | k IH | k IH | v k IH];
    intros mexports σ c σ' Hrun; cbn [run] in Hrun.
  - inversion Hrun; subst. apply later_refl.
  - inversion Hrun; subst. apply later_refl.
  - destruct (exec (property tbl path) σ) as [[[v |] σ1] |] eqn:He; [| | discriminate];
      (eapply later_trans; [eapply Hexec; exact He | eapply IH; exact Hrun]).
  - eauto.
  - eapply later_trans; [apply later_set_prop | eauto].
  - destruct (new_object σ) as [l σ1] eqn:Hn.
    eapply later_trans; [| eapply IH; exact Hrun].
    pose proof (later_new_object σ) as H. by rewrite Hn in H.
  - eauto.
  - eauto.
Qed.

Lemma executeModule_later fuel :
  forall id σ c σ', executeModule modules fuel id σ = Some (c, σ') -> later σ σ'.
Proof.
  induction fuel as [| fuel IH]; intros id σ c σ' Hrun; [discriminate |].
  cbn [executeModule] in Hrun. cbn [executedModules] in Hrun.
  destruct (executedModules σ !! id) as [l |] eqn:Hc.
  { inversion Hrun; subst. unfold later; simpl. auto. }
  assert (Hins : forall id' l', executedModules σ !! id' = Some l' ->
            <[id := length (heap σ)]> (executedModules σ) !! id' = Some l').
  { intros id' l' H. rewrite lookup_insert_ne; [done |]. congruence. }
  cbn [new_object heap executedModules invoked calls] in Hrun.
  destruct (entry modules id) as [e |] eqn:Hent;
    [destruct id as [n | | name]; [| discriminate Hent ..] |].
  - apply (run_later _ _ IH) in Hrun. destruct Hrun as (H1 & H2 & H3). simpl in *.
    rewrite length_app in *. simpl in *. unfold later. split_and!; [auto | lia | lia].
  - inversion Hrun; subst. unfold later; simpl. rewrite length_app. simpl.
    split_and!; [auto | lia | lia].
Qed.

(** A call with an identity that is cached returns the cached object and
    calls no factory. *)
Lemma executeModule_hit fuel id l σ :
  executedModules σ !! id = Some l ->
  executeModule modules (S fuel) id σ
  = Some (Normal (VObject l),
          {| heap := heap σ; executedModules := executedModules σ;
             invoked := invoked σ; calls := calls σ ++ [id] |}).
Proof. intros H. cbn [executeModule executedModules]. by rewrite H. Qed.



Lemma executeModule_caches fuel id σ c σ' :
  executedModules σ !! id = None ->
  executeModule modules fuel id σ = Some (c, σ') ->
  executedModules σ' !! id = Some (length (heap σ)).
Proof.
  intros Hc Hrun. destruct fuel as [| fuel]; [discriminate |].
  cbn [executeModule executedModules] in Hrun. rewrite Hc in Hrun.
  cbn [new_object heap executedModules invoked calls] in Hrun.
  destruct (entry modules id) as [e |] eqn:Hent;
    [destruct id as [n | | name]; [| discriminate Hent ..] |].
  - apply (run_later _ _ (executeModule_later fuel)) in Hrun as (H & _).
    apply H. simpl. apply lookup_insert_eq.
  - inversion Hrun; subst. simpl. apply lookup_insert_eq.
Qed.

End LoaderFacts.

Section LoaderRuns.

Import Loader.

Variable modules : gmap nat Entry.







(** *** Bundles whose factories perform their imports *)









(** *** What a call returns *)




End LoaderRuns.




(** Two modules that import each other: both factories run once, and
    module 1 sees the export object of module 0 before [x] is set. *)
Lemma mutual_imports_run :
  exists σ,
    Loader.executeModule mutual 3 (Loader.Number 0) Loader.start
    = Some (Loader.Normal (Loader.VObject 0), σ) /\
    Loader.invoked σ = [0; 1] /\
    Loader.calls σ = [Loader.Number 0; Loader.Number 1; Loader.Number 0] /\
    Loader.get_prop σ 1 "seen" = Loader.VUndefined /\
    Loader.get_prop σ 0 "seen" = Loader.VNumber 2 /\
    Loader.get_prop σ 0 "x" = Loader.VNumber 1.
Proof. eexists. split_and!; vm_compute; reflexivity. Qed.



(** In the bundle as a whole the two requires of the replaced module
    give different objects: the first the object that the factory put in
    place of [module.exports], the second the one made before it ran. *)
Lemma replaced_exports_differ :
  exists σ,
    Loader.executeModule replacing 3 (Loader.Number 0) Loader.start
    = Some (Loader.Normal (Loader.VObject 0), σ) /\
    Loader.get_prop σ 0 "first" = Loader.VObject 2 /\
    Loader.get_prop σ 0 "second" = Loader.VObject 1 /\
    Loader.get_prop σ 2 "k" = Loader.VNumber 7 /\
    Loader.invoked σ = [0; 1].
Proof. eexists. split_and!; vm_compute; reflexivity. Qed.

(** * Further properties of the code *)

(** ** The command line *)

Lemma parse_argv_input (argv : list string) :
  forall i opt,
    input (parse_argv i argv opt)
    = if decide (i <= 2)
      then match argv !! (2 - i) with Some v => Some v | None => input opt end
      else input opt.
Proof.
  induction argv as [| v rest IH]; intros i opt; cbn [parse_argv].
  - by destruct (decide (i <= 2)).
  - rewrite IH. destruct (Nat.eqb_spec i 2) as [-> | Hne].
    + simpl. by destruct (String.eqb v "-o").
    + destruct (decide (S i <= 2)), (decide (i <= 2)); try lia.
      * replace (2 - i) with (S (2 - S i)) by lia. simpl.
        by destruct (String.eqb v "-o").
      * by destruct (String.eqb v "-o").
Qed.

(** The input is the argument at index 2, whatever it is and whatever
    else is on the command line; with fewer than three arguments there is
    no input, and the program stops with its usage error. *)
Theorem input_is_third_argument (w : World) (fuel : nat) (argv : list string) :
  input (parse_argv 0 argv {| input := None; output := None |}) = argv !! 2 /\
  (length argv <= 2 ->
   main w fuel argv = Some (die [] (Exit1 "No input is provided."))).
Proof.
  assert (Hin : input (parse_argv 0 argv {| input := None; output := None |})
                = argv !! 2).
  { rewrite parse_argv_input. simpl. by destruct (argv !! 2). }
  split; [done |]. intros Hlen. unfold main. cbv zeta. rewrite Hin.
  by rewrite lookup_ge_None_2 by lia.
Qed.

Lemma input_is_third_argument_witness :
  main demo_world 5 ["node"; "kidnap"] = Some (die [] (Exit1 "No input is provided.")).
Proof.
  apply (input_is_third_argument demo_world 5 ["node"; "kidnap"]). simpl. lia.
Defined.

Lemma parse_argv_cons (i : nat) (v : string) (rest : list string) (opt : Option) :
  parse_argv i (v :: rest) opt
  = parse_argv (S i) rest
      (let option1 :=
         if Nat.eqb i 2 then {| input := Some v; output := output opt |} else opt in
       if String.eqb v "-o" then {| input := input option1; output := head rest |}
       else option1).
Proof. reflexivity. Qed.

Lemma parse_argv_no_flag (argv : list string) :
  "-o" ∉ argv -> forall i opt, output (parse_argv i argv opt) = output opt.
Proof.
  induction argv as [| v rest IH]; intros Hno i opt; cbn [parse_argv]; [done |].
  apply not_elem_of_cons in Hno as [Hv Hrest]. rewrite (IH Hrest).
  destruct (String.eqb_spec v "-o"); [congruence |].
  by destruct (Nat.eqb i 2).
Qed.

(** The output is what follows the last [-o]: an earlier [-o] is
    overridden, and a [-o] that ends the command line leaves the output
    undefined even when an earlier one had a value. *)
Theorem output_follows_last_flag (pre post : list string) (out : string) (i : nat)
  (opt : Option) :
  ("-o" ∉ out :: post ->
   output (parse_argv i (pre ++ "-o" :: out :: post) opt) = Some out) /\
  output (parse_argv i (pre ++ ["-o"]) opt) = None /\
  ("-o" ∉ pre -> output (parse_argv i pre opt) = output opt).
Proof.
  split_and!.
  - intros Hno. revert i opt.
    induction pre as [| v pre IH]; intros i opt; cbn [app]; rewrite parse_argv_cons;
      [| apply IH].
    rewrite (parse_argv_no_flag _ Hno). simpl. by destruct (Nat.eqb i 2).
  - revert i opt.
    induction pre as [| v pre IH]; intros i opt; cbn [app]; rewrite parse_argv_cons;
      [| apply IH].
    simpl. by destruct (Nat.eqb i 2).
  - intros Hno. by apply parse_argv_no_flag.
Qed.

Lemma output_follows_last_flag_witness :
  output (parse_argv 0 ["node"; "kidnap"; "main"; "-o"; "a.js"; "-o"; "b.js"]
            {| input := None; output := None |}) = Some "b.js".
Proof.
  apply (output_follows_last_flag ["node"; "kidnap"; "main"; "-o"; "a.js"] [] "b.js").
  intros H. repeat (apply elem_of_cons in H as [H | H]; [discriminate |]).
  by apply elem_of_nil in H.
Defined.

(** ** Relative resolution returns source files *)

(** What relative resolution returns is an existing file, with an
    absolute path that ends in [.ts]. *)
Theorem local_resolution_returns_ts_file (w : World) (path : string)
  (from : option string) (p : string) :
  localModulePath w path from = Returns p ->
  isFile w p = true /\ absolute p /\ Str.endsWith p ".ts" = true.
Proof.
  intros H. split_and!; [| by eapply localModulePath_absolute |];
    unfold localModulePath in H.
  - destruct (isFile w (tsPathOf _)) eqn:Hf; [congruence |].
    destruct (isDir w _); [| discriminate]. simpl in H.
    destruct (isFile w (resolve w _)) eqn:Hi; [congruence | discriminate].
  - destruct (isFile w (tsPathOf _)).
    + inversion H; subst. unfold tsPathOf.
      destruct (Str.endsWith (absPathOf w path from) ".ts") eqn:He; [done |].
      rewrite <- (of_chars_chars (absPathOf w path from +:+ ".ts")), chars_append.
      apply endsWith_intro.
    + destruct (_ && _); [| discriminate]. inversion H; subst.
      apply (resolve_keeps_suffix (cwd w) [absPathOf w path from] "index.ts" ".ts");
        reflexivity.
Qed.

Lemma local_resolution_returns_ts_file_witness :
  isFile (world_of twins) "/p/bar/index.ts" = true /\
  absolute "/p/bar/index.ts" /\ Str.endsWith "/p/bar/index.ts" ".ts" = true.
Proof.
  apply (local_resolution_returns_ts_file (world_of twins) "./bar" (Some "/p/main.ts")).
  vm_compute. reflexivity.
Defined.

(** ** The walk of package resolution *)

Section Walk.

Variable w : World.

Lemma findProjRoot_nearest fuel :
  forall d r,
    findProjRoot w fuel d = Some r ->
    exists k, k < fuel /\ r = Nat.iter k Path.dirname d /\
      isDir w (resolve w [r; "node_modules"]) = true /\
      forall j, j < k ->
        isDir w (resolve w [Nat.iter j Path.dirname d; "node_modules"]) = false.
Proof.
  induction fuel as [| fuel IH]; intros d r H; [discriminate |].
  cbn [findProjRoot] in H.
  destruct (isDir w (resolve w [d; "node_modules"])) eqn:Hd.
  - inversion H; subst. exists 0. split_and!; [lia | done | done | intros j Hj; lia].
  - destruct (IH _ _ H) as (k & Hk & -> & Hr & Hbelow).
    exists (S k). rewrite !Nat.iter_succ_r. split_and!; [lia | done | done |].
    intros [| j] Hj; [done |]. rewrite Nat.iter_succ_r. apply Hbelow. lia.
Qed.

Lemma findProjRoot_more fuel :
  forall fuel' d r,
    findProjRoot w fuel d = Some r -> fuel <= fuel' -> findProjRoot w fuel' d = Some r.
Proof.
  induction fuel as [| fuel IH]; intros fuel' d r H Hle; [discriminate |].
  destruct fuel' as [| fuel']; [lia |]. cbn [findProjRoot] in *.
  destruct (isDir w _); [done |]. apply IH; [done | lia].
Qed.

(** The package is looked for in one place only: the nearest directory,
    from the importing file upwards, that has a [node_modules] directory.
    When that directory has neither [<pkg>.js] nor a manifest nor an
    index file for the package, the module is not found, whatever the
    directories farther up hold. *)
Theorem package_is_sought_in_nearest_root_only (fuel : nat) (pkg from projRoot : string) :
  findProjRoot w fuel (Path.dirname from) = Some projRoot ->
  (exists k,
     projRoot = Nat.iter k Path.dirname (Path.dirname from) /\
     isDir w (resolve w [projRoot; "node_modules"]) = true /\
     forall j, j < k ->
       isDir w (resolve w [Nat.iter j Path.dirname (Path.dirname from); "node_modules"])
       = false) /\
  (let pkgRoot := resolve w [projRoot; "node_modules"; pkg] in
   isFile w (pkgRoot +:+ ".js") = false ->
   isFile w (resolve w [pkgRoot; "package.json"]) = false ->
   isFile w (resolve w [pkgRoot; "index.js"]) = false ->
   npmModulePath w fuel pkg from = error (cannot_find pkg)).
Proof.
  intros Hroot. split.
  - destruct (findProjRoot_nearest _ _ _ Hroot) as (k & _ & ? & ? & ?). eauto.
  - intros pkgRoot Hjs Hpj Hidx. unfold npmModulePath. rewrite Hroot.
    fold pkgRoot. by rewrite Hjs, Hpj, Hidx.
Qed.

(** Package resolution ends exactly when some directory on the way up
    has a [node_modules] directory, and what it gives does not depend on
    the fuel. *)
Theorem package_resolution_ends_iff_root_exists (pkg from : string) :
  ((exists k,
      isDir w (resolve w [Nat.iter k Path.dirname (Path.dirname from); "node_modules"])
      = true)
   <-> exists fuel, npmModulePath w fuel pkg from <> OutOfFuel) /\
  (forall fuel fuel',
     npmModulePath w fuel pkg from <> OutOfFuel -> fuel <= fuel' ->
     npmModulePath w fuel' pkg from = npmModulePath w fuel pkg from).
Proof.
  split; [split |].
  - intros [k Hk]. exists (S k).
    destruct (findProjRoot_found w k _ Hk) as [r Hr].
    by apply (npmModulePath_ends w (S k) pkg from r).
  - intros [fuel Hf]. unfold npmModulePath in Hf.
    destruct (findProjRoot w fuel (Path.dirname from)) as [r |] eqn:Hr; [| done].
    destruct (findProjRoot_nearest _ _ _ Hr) as (k & _ & -> & Hd & _). eauto.
  - intros fuel fuel' Hf Hle. unfold npmModulePath in *.
    destruct (findProjRoot w fuel (Path.dirname from)) as [r |] eqn:Hr; [| done].
    by rewrite (findProjRoot_more _ _ _ _ Hr Hle).
Qed.

End Walk.

Lemma package_is_sought_in_nearest_root_only_witness :
  npmModulePath (world_of nested) 3 "lodash" "/p/main.ts" = error (cannot_find "lodash") /\
  isFile (world_of nested) "/node_modules/lodash.js" = true.
Proof.
  split; [| vm_compute; reflexivity].
  apply (package_is_sought_in_nearest_root_only (world_of nested) 3 "lodash"
           "/p/main.ts" "/p"); vm_compute; reflexivity.
Defined.

Lemma package_resolution_ends_iff_root_exists_witness :
  npmModulePath demo_world 7 "lodash" "/p/main.ts"
  = npmModulePath demo_world 2 "lodash" "/p/main.ts".
Proof.
  apply (package_resolution_ends_iff_root_exists demo_world "lodash" "/p/main.ts").
  - vm_compute. discriminate.
  - lia.
Defined.

(** ** Dependency tables and the registry over a build *)

Definition add_key (acc : list string) (k : string) : list string :=
  if decide (k ∈ acc) then acc else acc ++ [k].

Lemma map_set_add_key deps key val :
  map fst (map_set deps key val) = add_key (map fst deps) key.
Proof.
  unfold add_key. induction deps as [| [k v] r IH]; cbn [map_set map fst].
  - destruct (decide (key ∈ [])) as [H | _]; [by apply elem_of_nil in H | done].
  - destruct (String.eqb_spec k key) as [-> | Hne]; cbn [map fst].
    + destruct (decide (key ∈ key :: map fst r)) as [_ | H]; [done |].
      exfalso. apply H, list_elem_of_here.
    + rewrite IH.
      destruct (decide (key ∈ map fst r)) as [Hin | Hnin],
               (decide (key ∈ k :: map fst r)) as [Hin' | Hnin']; try done.
      * exfalso. apply Hnin'. by apply list_elem_of_further.
      * exfalso. apply elem_of_cons in Hin' as [-> | Hin']; done.
Qed.

Lemma first_occurrences_snoc l x :
  first_occurrences (l ++ [x]) = add_key (first_occurrences l) x.
Proof.
  unfold first_occurrences, add_key. rewrite rev_app_distr. cbn [rev app remove_dups].
  assert (Hiff : x ∈ rev (remove_dups (rev l)) <-> x ∈ rev l).
  { rewrite (list_elem_of_In (rev (remove_dups (rev l))) x), <- in_rev,
      <- list_elem_of_In.
    apply elem_of_remove_dups. }
  destruct (decide_rel elem_of x (rev l)) as [Hin | Hnin],
           (decide (x ∈ rev (remove_dups (rev l)))) as [Hin' | Hnin']; try done.
  - exfalso. by apply Hnin', Hiff.
  - exfalso. by apply Hnin, Hiff.
Qed.

Lemma fold_add_key l : fold_left add_key l [] = first_occurrences l.
Proof.
  induction l as [| x l IH] using rev_ind; [done |].
  by rewrite fold_left_app, first_occurrences_snoc, <- IH.
Qed.

Lemma specifiers_cons n nodes :
  specifiers (n :: nodes)
  = match n with
    | ImportDeclaration e =>
        match JSON.parse (getText e) with
        | Some dep => dep :: specifiers nodes
        | None => specifiers nodes
        end
    | OtherNode => specifiers nodes
    end.
Proof. unfold specifiers. destruct n as [e |]; simpl; [| done]. by destruct (JSON.parse _). Qed.

Section Tables.

Variable w : World.

Lemma forEachChild_keys fuel src nodes :
  forall deps g deps' g',
    forEachChild nodes (visit w fuel src) (deps, g) = Returns (deps', g') ->
    map fst deps' = fold_left add_key (specifiers nodes) (map fst deps).
Proof.
  induction nodes as [| n nodes IH]; intros deps g deps' g' Hrun;
    cbn [forEachChild] in Hrun.
  - by inversion Hrun; subst.
  - destruct (visit w fuel src (deps, g) n) as [[deps1 g1] | |] eqn:Hv;
      cbn [mbind outcome_bind] in Hrun; try discriminate.
    rewrite (IH _ _ _ _ Hrun), specifiers_cons.
    destruct n as [e |]; simpl in Hv; [| by inversion Hv; subst].
    destruct (JSON.parse (getText e)) as [dep |]; [| discriminate].
    destruct (depPathOf w fuel dep src) as [depPath | |];
      cbn [mbind outcome_bind] in Hv; try discriminate.
    destruct (moduleToId g !! depPath); inversion Hv; subst; simpl;
      by rewrite map_set_add_key.
Qed.

(** The dependency table of a compiled module has the specifiers of the
    file's import declarations, each once, in the order in which they
    first occur in the file. *)
Theorem dependency_table_in_source_order (fuel : nat) (src : string) (g g' : Globals)
  (m : Module) :
  compile w fuel src g = Returns (m, g') ->
  exists content,
    readFile w src = Some content /\
    map fst (deps m) = first_occurrences (specifiers (createSourceFile w src content)).
Proof.
  unfold compile. destruct (readFile w src) as [content |]; [| discriminate].
  destruct (forEachChild _ _ _) as [[deps' g1] | |] eqn:Hscan;
    cbn [mbind outcome_bind]; try discriminate.
  intros [= <- <-]. exists content. split; [done |]. simpl.
  by rewrite (forEachChild_keys _ _ _ _ _ _ _ Hscan), fold_add_key.
Qed.

Lemma visit_only_adds fuel src deps g n deps' g' :
  visit w fuel src (deps, g) n = Returns (deps', g') ->
  (forall p i, moduleToId g !! p = Some i -> moduleToId g' !! p = Some i) /\
  moduleId g <= moduleId g' /\
  exists added, files g' = files g ++ added.
Proof.
  intros Hv. destruct n as [e |]; simpl in Hv.
  2: { inversion Hv; subst. split_and!; [done | done |]. exists []. by rewrite app_nil_r. }
  destruct (JSON.parse (getText e)) as [dep |]; [| discriminate].
  destruct (depPathOf w fuel dep src) as [depPath | |];
    cbn [mbind outcome_bind] in Hv; try discriminate.
  destruct (moduleToId g !! depPath) as [depID |] eqn:Hreg; inversion Hv; subst; simpl.
  - split_and!; [done | done |]. exists []. by rewrite app_nil_r.
  - split_and!; [| lia | by exists [depPath]].
    intros p i Hp. rewrite lookup_insert_ne; [done |]. congruence.
Qed.

Lemma compile_only_adds fuel src g m g' :
  compile w fuel src g = Returns (m, g') ->
  (forall p i, moduleToId g !! p = Some i -> moduleToId g' !! p = Some i) /\
  moduleId g <= moduleId g' /\
  exists added, files g' = files g ++ added.
Proof.
  unfold compile. destruct (readFile w src) as [content |]; [| discriminate].
  generalize (createSourceFile w src content). intros nodes.
  destruct (forEachChild _ _ _) as [[deps' g1] | |] eqn:Hscan;
    cbn [mbind outcome_bind]; try discriminate.
  intros [= <- <-]. revert Hscan. generalize (@nil (string * nat)).
  revert g. induction nodes as [| n nodes IH]; intros g deps Hrun;
    cbn [forEachChild] in Hrun.
  - inversion Hrun; subst. split_and!; [done | done |]. exists []. by rewrite app_nil_r.
  - destruct (visit w fuel src (deps, g) n) as [[deps1 g2] | |] eqn:Hv;
      cbn [mbind outcome_bind] in Hrun; try discriminate.
    destruct (visit_only_adds _ _ _ _ _ _ _ Hv) as (H1 & H2 & a1 & H3).
    destruct (IH _ _ Hrun) as (H1' & H2' & a2 & H3').
    split_and!; [auto | lia |]. exists (a1 ++ a2). by rewrite H3', H3, app_assoc.
Qed.

(** Over the loop of the graph builder nothing is taken back: a path
    keeps the identity it was registered with, the identity counter does
    not go down, and the modules compiled so far stay at the front of the
    list of modules. *)
Theorem build_only_adds (fuel : nat) (g g' : Globals) (modules modules' : list Module) :
  build_loop w fuel g modules = Returns (modules', g') ->
  (forall p i, moduleToId g !! p = Some i -> moduleToId g' !! p = Some i) /\
  moduleId g <= moduleId g' /\
  exists more, modules' = modules ++ more.
Proof.
  revert g modules. induction fuel as [| fuel IH]; intros g modules Hrun;
    [discriminate |].
  cbn [build_loop] in Hrun. destruct (files g) as [| src rest] eqn:Hq.
  - inversion Hrun; subst. split_and!; [done | done |]. exists []. by rewrite app_nil_r.
  - destruct (String.eqb src "").
    + inversion Hrun; subst. simpl. split_and!; [done | done |].
      exists []. by rewrite app_nil_r.
    + destruct (compile w fuel src _) as [[m g2] | |] eqn:Hc;
        cbn [mbind outcome_bind] in Hrun; try discriminate.
      destruct (compile_only_adds _ _ _ _ _ Hc) as (H1 & H2 & _). simpl in *.
      destruct (IH _ _ Hrun) as (H1' & H2' & more & ->).
      split_and!; [auto | lia |]. exists (m :: more). by rewrite <- app_assoc.
Qed.

Lemma append_cancel_r (a b s : string) : a +:+ s = b +:+ s -> a = b.
Proof.
  intros H. apply (f_equal Str.chars) in H. rewrite !chars_append in H.
  apply app_inv_tail in H. rewrite <- (of_chars_chars a), <- (of_chars_chars b).
  by rewrite H.
Qed.

(** The keys of the module table that [generate] writes for a built
    project are pairwise different, so no entry of the table replaces
    another. *)
Theorem table_keys_are_distinct (fuel : nat) (inp entryFile : string)
  (modules : list Module) (g : Globals) :
  localModulePath w inp None = Returns entryFile ->
  build w fuel entryFile = Returns (modules, g) ->
  NoDup (map table_key modules) /\
  forall m, m ∈ modules -> head (generate_module m) = Some (table_key m).
Proof.
  intros Hentry Hrun.
  assert (Hne : entryFile <> "") by eauto using localModulePath_nonempty.
  destruct (build_ok_result w fuel entryFile modules g Hne Hrun)
    as ((_ & _ & _ & _ & _ & _ & Hids & _) & _).
  split; [| done]. apply NoDup_alt. intros i j x Hi Hj.
  rewrite list_lookup_fmap in Hi, Hj.
  destruct (modules !! i) as [mi |] eqn:Hmi; [| done].
  destruct (modules !! j) as [mj |] eqn:Hmj; [| done].
  simpl in Hi, Hj. inversion Hi as [Hxi]. inversion Hj as [Hxj].
  unfold table_key in *. rewrite (Hids i mi Hmi) in Hxi. rewrite (Hids j mj Hmj) in Hxj.
  rewrite <- Hxj in Hxi. apply append_cancel_r in Hxi. simpl in Hxi.
  by apply (inj pretty) in Hxi.
Qed.

(** A run that ends with exit status 0 has written exactly one file: the
    generated text of the built modules, under the path given after
    [-o]; it has printed nothing. *)
Theorem successful_run_writes_one_file (fuel : nat) (argv : list string) (p : Process) :
  main w fuel argv = Some p -> exitCode p = 0 ->
  exists out inp entryFile modules g,
    input (parse_argv 0 argv {| input := None; output := None |}) = Some inp /\
    output (parse_argv 0 argv {| input := None; output := None |}) = Some out /\
    localModulePath w inp None = Returns entryFile /\
    build w fuel entryFile = Returns (modules, g) /\
    written p = [(out, result_text (generate modules))] /\
    stdout p = [] /\ stderr p = [].
Proof.
  unfold main. cbv zeta.
  destruct (input _) as [inp |] eqn:Hin; [| by intros [= <-]].
  destruct (String.eqb inp ""); [by intros [= <-] |].
  destruct (localModulePath w inp None) as [entryFile | f |] eqn:He;
    [| intros [= <-]; by destruct f | discriminate].
  destruct (getPreEmitDiagnostics w entryFile); [| by intros [= <-]].
  destruct (build w fuel entryFile) as [[modules g] | f |] eqn:Hb;
    [| intros [= <-]; by destruct f | discriminate].
  destruct (output _) as [out |] eqn:Hout; [| by intros [= <-]].
  destruct (canWrite w out); [| by intros [= <-]].
  intros [= <-] _. exists out, inp, entryFile, modules, g. done.
Qed.

End Tables.

Lemma dependency_table_in_source_order_witness :
  exists content,
    readFile (world_of repeated) "/p/main.ts" = Some content /\
    map fst [("./b", 1); ("./a", 2)]
    = first_occurrences
        (specifiers (createSourceFile (world_of repeated) "/p/main.ts" content)).
Proof.
  eapply (dependency_table_in_source_order (world_of repeated) 9 "/p/main.ts"
            (initial "/p/main.ts")
            _ {| id := Some 0; file := "/p/main.ts";
                 deps := [("./b", 1); ("./a", 2)]; transpiled := "main" |}).
  reflexivity.
Defined.

Lemma build_only_adds_witness :
  (forall p i, moduleToId (initial "/p/main.ts") !! p = Some i ->
               moduleToId demo_globals !! p = Some i) /\
  moduleId (initial "/p/main.ts") <= moduleId demo_globals /\
  exists more, demo_modules = [] ++ more.
Proof.
  apply (build_only_adds demo_world 10). vm_compute. reflexivity.
Defined.

Lemma table_keys_are_distinct_witness :
  NoDup (map table_key demo_modules) /\
  forall m, m ∈ demo_modules -> head (generate_module m) = Some (table_key m).
Proof.
  apply (table_keys_are_distinct demo_world 10 "p/main" "/p/main.ts"
           demo_modules demo_globals); vm_compute; reflexivity.
Defined.

Lemma successful_run_writes_one_file_witness :
  exists p, main demo_world 10 command_line = Some p /\
            exists modules, written p = [("out.js", result_text (generate modules))].
Proof.
  destruct (main demo_world 10 command_line) as [p |] eqn:Hp; [| vm_compute in Hp; done].
  exists p. split; [done |].
  destruct (successful_run_writes_one_file demo_world 10 command_line p Hp)
    as (out & inp & entryFile & modules & g & _ & Hout & _ & _ & Hw & _).
  - vm_compute in Hp. inversion Hp. reflexivity.
  - exists modules. vm_compute in Hout. inversion Hout; subst. exact Hw.
Defined.

(** ** More on the loader *)

Section LoaderEdges.

Import Loader.

Variable modules : gmap nat Entry.

(** A call that throws, because the identity is not in the table or
    because the factory throws, was a call for an identity not yet cached,
    and it leaves the identity cached with the export object made for it:
    a later call for the same identity does not throw and runs no
    factory, it returns that object. *)
Theorem failed_call_is_not_retried (fuel : nat) (id : ident) (σ σ' : Machine) :
  executeModule modules fuel id σ = Some (Thrown, σ') ->
  executedModules σ !! id = None /\
  executedModules σ' !! id = Some (length (heap σ)) /\
  forall fuel' σ'', later σ' σ'' ->
    exists σ3,
      executeModule modules (S fuel') id σ''
      = Some (Normal (VObject (length (heap σ))), σ3) /\
      invoked σ3 = invoked σ''.
Proof.
  intros Hrun.
  assert (Hmiss : executedModules σ !! id = None).
  { destruct (executedModules σ !! id) as [l |] eqn:Hc; [| done].
    destruct fuel as [| fuel]; [discriminate |].
    rewrite (executeModule_hit modules _ _ _ _ Hc) in Hrun. discriminate. }
  pose proof (executeModule_caches _ _ _ _ _ _ Hmiss Hrun) as Hcached.
  split_and!; [done | done |]. intros fuel' σ'' (Hkeep & _).
  eexists. split; [apply executeModule_hit; auto | done].
Qed.

Lemma separate_start : separate start.
Proof.
  split; simpl.
  - intros id l H. by rewrite lookup_empty in H.
  - intros id1 id2 l H. by rewrite lookup_empty in H.
Qed.

Lemma run_separate exec tbl :
  (forall id σ c σ', separate σ -> exec id σ = Some (c, σ') -> separate σ') ->
  forall b mexports σ c σ',
    separate σ -> run exec tbl b mexports σ = Some (c, σ') -> separate σ'.
Proof.
  intros Hexec.
  induction b as [| | path k IH | o key k IH | o key v k IH | k IH | k IH | v k IH];
    intros mexports σ c σ' Hs Hrun; cbn [run] in Hrun.
  - by inversion Hrun; subst.
  - by inversion Hrun; subst.
  - destruct (exec (property tbl path) σ) as [[[v |] σ1] |] eqn:He; [| | discriminate];
      eauto.
  - eauto.
  - eapply IH; [| exact Hrun]. destruct Hs as (Hb & Hi).
    split; simpl; [| done]. intros id l H. rewrite length_alter. eauto.
  - destruct (new_object σ) as [l σ1] eqn:Hn. eapply IH; [| exact Hrun].
    unfold new_object in Hn. inversion Hn; subst. destruct Hs as (Hb & Hi).
    split; simpl; [| done]. intros id l H. rewrite length_app. simpl.
    pose proof (Hb id l H). lia.
  - eauto.
  - eauto.
Qed.

(** Each identity gets an export object of its own: after any call, the
    objects in the cache are in the heap, and no two identities share
    one. *)
Theorem export_objects_are_distinct (fuel : nat) :
  forall id σ c σ',
    separate σ -> executeModule modules fuel id σ = Some (c, σ') -> separate σ'.
Proof.
  induction fuel as [| fuel IH]; intros id σ c σ' Hs Hrun; [discriminate |].
  cbn [executeModule executedModules] in Hrun.
  destruct (executedModules σ !! id) as [l |] eqn:Hc.
  { inversion Hrun; subst. by destruct Hs. }
  cbn [new_object heap executedModules invoked calls] in Hrun.
  assert (Hnew : forall inv cs,
            separate {| heap := heap σ ++ [∅];
                        executedModules := <[id := length (heap σ)]> (executedModules σ);
                        invoked := inv; calls := cs |}).
  { intros inv cs. destruct Hs as (Hb & Hi). split; simpl.
    - intros id' l H. rewrite length_app. simpl.
      apply lookup_insert_Some in H as [[_ <-] | [_ H]]; [lia |].
      pose proof (Hb id' l H). lia.
    - intros id1 id2 l H1 H2.
      apply lookup_insert_Some in H1 as [[<- <-] | [Hn1 H1]];
        apply lookup_insert_Some in H2 as [[<- E] | [Hn2 H2]]; try done.
      + pose proof (Hb id2 _ H2). lia.
      + pose proof (Hb id1 _ H1). lia.
      + eauto. }
  destruct (entry modules id) as [e |] eqn:Hent;
    [destruct id as [n | | name]; [| discriminate Hent ..] |].
  - eapply (run_separate _ _ IH); [| exact Hrun]. apply Hnew.
  - inversion Hrun; subst. apply Hnew.
Qed.

End LoaderEdges.

Lemma failed_call_is_not_retried_witness :
  exists σ',
    Loader.executeModule faulty 1 Loader.Undefined Loader.start
    = Some (Loader.Thrown, σ') /\
    exists σ3,
      Loader.executeModule faulty 1 Loader.Undefined σ'
      = Some (Loader.Normal (Loader.VObject 0), σ3).
Proof.
  eexists. split; [vm_compute; reflexivity |].
  edestruct (failed_call_is_not_retried faulty 1 Loader.Undefined Loader.start)
    as (_ & _ & Hnext).
  - vm_compute. reflexivity.
  - destruct (Hnext 0 _ (later_refl _)) as (σ3 & H3 & _). exists σ3. exact H3.
Defined.

(** In a whole bundle: the first [require] of the unknown path throws,
    the second gives an empty object. *)
Lemma unknown_path_throws_once :
  exists σ,
    Loader.executeModule faulty 2 (Loader.Number 0) Loader.start
    = Some (Loader.Normal (Loader.VObject 0), σ) /\
    Loader.get_prop σ 0 "first" = Loader.VNumber 0 /\
    Loader.get_prop σ 0 "second" = Loader.VObject 1 /\
    Loader.heap σ !! 1 = Some ∅.
Proof. eexists. split_and!; vm_compute; reflexivity. Qed.

(** Names that the table does not have, or has under [__proto__]: the
    three calls are for three different things, none of them in
    [modules], and each throws; module 1 is never run. *)
Lemma inherited_names_throw :
  exists σ,
    Loader.executeModule shadowed 3 (Loader.Number 0) Loader.start
    = Some (Loader.Normal (Loader.VObject 0), σ) /\
    Loader.calls σ
    = [Loader.Number 0; Loader.Inherited "__proto__"; Loader.Inherited "constructor";
       Loader.Undefined] /\
    Loader.get_prop σ 0 "first" = Loader.VNumber 0 /\
    Loader.get_prop σ 0 "second" = Loader.VNumber 0 /\
    Loader.get_prop σ 0 "third" = Loader.VNumber 0 /\
    Loader.invoked σ = [0].
Proof. eexists. split_and!; vm_compute; reflexivity. Qed.

Lemma export_objects_are_distinct_witness :
  exists c σ',
    Loader.executeModule mutual 3 (Loader.Number 0) Loader.start = Some (c, σ') /\
    separate σ'.
Proof.
  destruct (Loader.executeModule mutual 3 (Loader.Number 0) Loader.start)
    as [[c σ'] |] eqn:Hrun;
    [| vm_compute in Hrun; done].
  exists c, σ'. split; [done |].
  exact (export_objects_are_distinct mutual 3 (Loader.Number 0) Loader.start c σ'
           separate_start Hrun).
Defined.

(** ** Specifiers written and read back *)

(** [JSON.parse(JSON.stringify(s))] is [s], for a string without the
    byte 237, the one that begins the surrogates. *)
Theorem stringify_then_parse (s : string) :
  forallb (fun c => negb (N_of_ascii c =? 237)%N) (Str.chars s) = true ->
  JSON.parse (JSON.stringify s) = Some s.
Proof.
  intros Hs. destruct (string_body_quote (Str.chars s) [] Hs) as (items & Hb & He).
  unfold JSON.parse, JSON.stringify. rewrite chars_of_chars.
  cbn [JSON.skip_ws]. change (JSON.is_ws JSON.dquote) with false. cbn iota.
  rewrite Ascii.eqb_refl, Hb. cbn [JSON.skip_ws]. by rewrite He, of_chars_chars.
Qed.

Lemma stringify_then_parse_witness :
  JSON.parse (JSON.stringify "../lib/a\b") = Some "../lib/a\b".
Proof. apply stringify_then_parse. vm_compute. reflexivity. Defined.

(** ** The build of a finite project ends *)

Lemma member_elem (k : string) (l : list string) : member k l = true <-> k ∈ l.
Proof.
  unfold member. rewrite existsb_exists. split.
  - intros (x & Hin & Hx). apply String.eqb_eq in Hx as ->. by apply list_elem_of_In.
  - intros Hin. exists k. split; [by apply list_elem_of_In | apply String.eqb_refl].
Qed.

Section Finite.

Variable w : World.
Variable limit : nat.
Variable universe : list string.
Hypothesis closed : closed_project w limit universe = true.

Lemma depPathOf_more fuel dep p q :
  depPathOf w limit dep p = Returns q -> limit <= fuel ->
  depPathOf w fuel dep p = Returns q.
Proof.
  unfold depPathOf. destruct (Str.startsWith dep "."); [done |].
  unfold npmModulePath. intros H Hle.
  destruct (findProjRoot w limit (Path.dirname p)) as [r |] eqn:Hr; [| discriminate].
  by rewrite (findProjRoot_more w _ _ _ _ Hr Hle).
Qed.

Lemma file_closed_universe p : p ∈ universe -> file_closed w limit universe p = true.
Proof.
  intros Hp. unfold closed_project in closed. rewrite forallb_forall in closed.
  by apply closed, list_elem_of_In.
Qed.

Lemma universe_edge p q : p ∈ universe -> import_edge w p q -> q ∈ universe.
Proof.
  intros Hp (content & n & Hread & Hn & fuel & e & dep & -> & Hparse & Hres).
  pose proof (file_closed_universe p Hp) as Hf. unfold file_closed in Hf.
  rewrite Hread, forallb_forall in Hf.
  pose proof (Hf _ (proj1 (list_elem_of_In _ _) Hn)) as He. simpl in He.
  rewrite Hparse in He.
  destruct (depPathOf w limit dep p) as [q' | |] eqn:Hq'; try discriminate.
  apply member_elem in He.
  by rewrite (depPathOf_det w _ _ _ _ _ _ Hres Hq').
Qed.

Lemma universe_reachable entryFile p :
  entryFile ∈ universe -> rtc (import_edge w) entryFile p -> p ∈ universe.
Proof.
  intros He Hp. revert p Hp. apply rtc_ind_r; [done |].
  eauto using universe_edge.
Qed.

Lemma forEachChild_returns fuel p nodes :
  limit <= fuel ->
  forallb (node_closed w limit universe p) nodes = true ->
  forall deps g, exists deps' g',
    forEachChild nodes (visit w fuel p) (deps, g) = Returns (deps', g').
Proof.
  intros Hle. induction nodes as [| n nodes IH]; intros Hall deps g;
    cbn [forEachChild]; [eauto |].
  simpl in Hall. apply andb_true_iff in Hall as [Hn Hrest].
  assert (Hv : exists deps1 g1, visit w fuel p (deps, g) n = Returns (deps1, g1)).
  { destruct n as [e |]; simpl in *; [| eauto].
    destruct (JSON.parse (getText e)) as [dep |]; [| discriminate].
    destruct (depPathOf w limit dep p) as [q | |] eqn:Hq; try discriminate.
    rewrite (depPathOf_more _ _ _ _ Hq Hle). cbn [mbind outcome_bind].
    destruct (moduleToId g !! q); eauto. }
  destruct Hv as (deps1 & g1 & ->). cbn [mbind outcome_bind]. by apply IH.
Qed.

Lemma compile_returns fuel p g :
  limit <= fuel -> p ∈ universe ->
  exists m g', compile w fuel p g = Returns (m, g').
Proof.
  intros Hle Hp. pose proof (file_closed_universe p Hp) as Hf.
  unfold file_closed in Hf. unfold compile.
  destruct (readFile w p) as [content |]; [| discriminate].
  destruct (forEachChild_returns fuel p _ Hle Hf [] g) as (deps' & g' & ->).
  cbn [mbind outcome_bind]. eauto.
Qed.

Lemma build_loop_returns entryFile fuel :
  entryFile ∈ universe ->
  forall done g modules,
    build_ok w entryFile done g modules ->
    length universe + limit < fuel + length done ->
    exists modules' g', build_loop w fuel g modules = Returns (modules', g').
Proof.
  intros He. induction fuel as [| fuel IH]; intros done g modules Hok Hfuel.
  - exfalso.
    destruct Hok as ((Hnd & _) & _ & _ & _ & Hreach & _).
    apply NoDup_app in Hnd as (Hnd & _).
    assert (length done <= length universe); [| lia].
    apply submseteq_length, NoDup_submseteq; [done |].
    intros x Hx. apply (universe_reachable entryFile); [done |].
    apply Hreach, elem_of_app. auto.
  - cbn [build_loop]. destruct (files g) as [| src rest] eqn:Hq; [eauto |].
    pose proof Hok as ((Hnd & _) & Hnon & _ & _ & Hreach & _).
    rewrite Hq in Hnd, Hnon, Hreach.
    assert (Hin : src ∈ done ++ src :: rest).
    { apply elem_of_app. right. apply list_elem_of_here. }
    destruct (String.eqb_spec src "") as [Hs | _]; [by apply Hnon in Hin |].
    assert (Hsrc : src ∈ universe) by eauto using universe_reachable.
    assert (Hlen : length done + 1 <= length universe).
    { replace (length done + 1) with (length (done ++ [src]))
        by (rewrite length_app; simpl; lia).
      apply submseteq_length, NoDup_submseteq.
      - replace (done ++ src :: rest) with ((done ++ [src]) ++ rest) in Hnd
          by (by rewrite <- app_assoc).
        by apply NoDup_app in Hnd as (? & _).
      - intros x Hx. apply (universe_reachable entryFile); [done |].
        apply Hreach. apply elem_of_app in Hx as [Hx | Hx]; apply elem_of_app; [auto |].
        right. apply list_elem_of_singleton in Hx as ->. apply list_elem_of_here. }
    destruct (compile_returns fuel src
                {| moduleId := moduleId g; moduleToId := moduleToId g; files := rest |})
      as (m & g2 & Hc); [lia | done |].
    rewrite Hc. cbn [mbind outcome_bind].
    apply (IH (done ++ [src])).
    + eauto using build_ok_step.
    + rewrite length_app. simpl. lia.
Qed.

End Finite.

(** When the files of a finite list [universe] can be read and their
    imports resolve, within [limit] steps of the walk, to files of the
    list, and the entry file is in the list, the build returns, with any
    fuel above the length of the list plus [limit]; its modules are files
    of the list. *)
Theorem build_returns_on_closed_project (w : World) (limit fuel : nat)
  (universe : list string) (inp entryFile : string) :
  localModulePath w inp None = Returns entryFile ->
  member entryFile universe = true ->
  closed_project w limit universe = true ->
  length universe + limit < fuel ->
  exists modules g,
    build w fuel entryFile = Returns (modules, g) /\
    forall m, m ∈ modules -> file m ∈ universe.
Proof.
  intros Hentry Hmem Hclosed Hfuel. apply member_elem in Hmem.
  assert (Hne : entryFile <> "") by eauto using localModulePath_nonempty.
  destruct (build_loop_returns w limit universe Hclosed entryFile fuel Hmem
              [] (initial entryFile) [])
    as (modules & g & Hrun); [by apply build_ok_initial | simpl; lia |].
  exists modules, g. split; [exact Hrun |].
  destruct (build_ok_result w fuel entryFile modules g Hne Hrun)
    as ((_ & _ & _ & _ & Hreach & _) & _).
  intros m Hm. apply (universe_reachable w limit universe Hclosed entryFile); [done |].
  apply Hreach, elem_of_app. left. apply list_elem_of_fmap. eauto.
Qed.

Lemma build_returns_on_closed_project_witness :
  exists modules g,
    build demo_world 7 "/p/main.ts" = Returns (modules, g) /\
    forall m, m ∈ modules ->
      file m ∈ ["/p/main.ts"; "/p/a.ts"; "/p/lib/index.ts"; "/node_modules/lodash.js"].
Proof.
  apply (build_returns_on_closed_project demo_world 2 7 _ "p/main").
  - vm_compute. reflexivity.
  - vm_compute. reflexivity.
  - vm_compute. reflexivity.
  - simpl. lia.
Defined.

(** ** The end of a build, and the text of the bundle *)

Lemma chars_inj (a b : string) : Str.chars a = Str.chars b -> a = b.
Proof. intros H. by rewrite <- (of_chars_chars a), <- (of_chars_chars b), H. Qed.

Lemma append_assoc_string (a b c : string) : (a +:+ b) +:+ c = a +:+ (b +:+ c).
Proof. apply chars_inj. rewrite !chars_append. by rewrite app_assoc. Qed.

Lemma append_empty_r (a : string) : a +:+ "" = a.
Proof. apply chars_inj. rewrite chars_append. apply app_nil_r. Qed.

Lemma result_text_from (chunks : list string) :
  forall acc,
    fold_left (fun result code => result +:+ code +:+ newline) chunks acc
    = acc +:+ result_text chunks.
Proof.
  unfold result_text. induction chunks as [| c chunks IH]; intros acc; cbn [fold_left].
  - by rewrite append_empty_r.
  - rewrite IH, (IH ("" +:+ c +:+ newline)).
    change ("" +:+ c +:+ newline) with (c +:+ newline).
    by rewrite !append_assoc_string.
Qed.

Lemma result_text_app (a b : list string) :
  result_text (a ++ b) = result_text a +:+ result_text b.
Proof.
  unfold result_text at 1. rewrite fold_left_app. fold (result_text a).
  apply result_text_from.
Qed.

Lemma result_text_flat_map (modules : list Module) :
  result_text (flat_map generate_module modules)
  = fold_right (fun m text => module_text m +:+ text) "" modules.
Proof.
  induction modules as [| m modules IH]; [done |].
  cbn [flat_map fold_right]. by rewrite result_text_app, IH.
Qed.

(** The text of the bundle is the opening with the loader, then the text
    of each module in order, then the closing line; the text of a module
    does not depend on the other modules. *)
Theorem bundle_text_is_concatenation (modules : list Module) :
  result_text (generate modules)
  = result_text [";(function (modules) {"; prelude; "})({"]
    +:+ fold_right (fun m text => module_text m +:+ text) "" modules
    +:+ "})" +:+ newline /\
  forall a b,
    result_text (generate (a ++ b))
    = result_text [";(function (modules) {"; prelude; "})({"]
      +:+ fold_right (fun m text => module_text m +:+ text) "" a
      +:+ fold_right (fun m text => module_text m +:+ text) "" b
      +:+ "})" +:+ newline.
Proof.
  assert (H : forall l,
            result_text (generate l)
            = result_text [";(function (modules) {"; prelude; "})({"]
              +:+ fold_right (fun m text => module_text m +:+ text) "" l
              +:+ "})" +:+ newline).
  { intros l. unfold generate. rewrite !result_text_app, result_text_flat_map. done. }
  split; [apply H |]. intros a b. rewrite H.
  assert (E : fold_right (fun m text => module_text m +:+ text) "" (a ++ b)
              = fold_right (fun m text => module_text m +:+ text) "" a
                +:+ fold_right (fun m text => module_text m +:+ text) "" b).
  { rewrite fold_right_app. clear. induction a as [| m a IH]; cbn [fold_right];
      [reflexivity |].
    by rewrite IH, append_assoc_string. }
  by rewrite E, append_assoc_string.
Qed.

Section Ending.

Variable w : World.

(** When the build returns nothing is pending: the queue is empty, the
    identity counter is the number of modules less one, and every path in
    the registry has its module in the list, at the position of its
    identity. *)
Theorem build_leaves_nothing_pending (fuel : nat) (inp entryFile : string)
  (modules : list Module) (g : Globals) :
  localModulePath w inp None = Returns entryFile ->
  build w fuel entryFile = Returns (modules, g) ->
  files g = [] /\
  length modules = S (moduleId g) /\
  forall p i, moduleToId g !! p = Some i ->
    exists m, modules !! i = Some m /\ file m = p /\ id m = Some i.
Proof.
  intros Hentry Hrun.
  assert (Hne : entryFile <> "") by eauto using localModulePath_nonempty.
  destruct (build_ok_result w fuel entryFile modules g Hne Hrun)
    as ((Hok & _ & _ & _ & _ & _ & Hids & _) & Hq).
  unfold registry_ok in Hok. rewrite Hq, app_nil_r in Hok.
  destruct Hok as (_ & Hlen & Hreg). rewrite length_map in Hlen.
  split_and!; [done | done |]. intros p i Hp. apply Hreg in Hp.
  rewrite list_lookup_fmap in Hp. destruct (modules !! i) as [m |] eqn:Hm; [| done].
  inversion Hp. exists m. split_and!; [done | done | by apply Hids].
Qed.

(** What package resolution returns is an absolute path, and it is an
    existing file unless it is the entry of a manifest. *)
Theorem package_resolution_result (fuel : nat) (pkg from p : string) :
  npmModulePath w fuel pkg from = Returns p ->
  absolute p /\
  (isFile w p = true \/
   exists projRoot manifest entry,
     findProjRoot w fuel (Path.dirname from) = Some projRoot /\
     require w (resolve w [resolve w [projRoot; "node_modules"; pkg]; "package.json"])
     = Some manifest /\
     or_else (pkg_module manifest) (pkg_main manifest) = Text entry /\
     p = resolve w [resolve w [projRoot; "node_modules"; pkg]; entry]).
Proof.
  intros H. split; [by eapply npmModulePath_absolute |].
  unfold npmModulePath in H.
  destruct (findProjRoot w fuel _) as [projRoot |] eqn:Hroot; [| discriminate].
  destruct (isFile w (_ +:+ ".js")) eqn:Hjs; [left; congruence |].
  assert (Hidx : forall q,
    (if isFile w (resolve w [resolve w [projRoot; "node_modules"; pkg]; "index.js"])
     then Returns (resolve w [resolve w [projRoot; "node_modules"; pkg]; "index.js"])
     else error (cannot_find pkg)) = Returns q -> isFile w q = true).
  { clear H. intros q Hq. destruct (isFile w (resolve w [_; "index.js"])) eqn:Hi;
      [congruence | discriminate]. }
  destruct (isFile w (resolve w [_; "package.json"])); [| left; by apply Hidx].
  destruct (require w _) as [manifest |] eqn:Hreq; [| discriminate].
  destruct (truthy _); [| left; by apply Hidx].
  destruct (or_else _ _) as [| entry |] eqn:Hor; try discriminate.
  inversion H; subst. right. exists projRoot, manifest, entry. done.
Qed.

End Ending.

Lemma build_leaves_nothing_pending_witness :
  files demo_globals = [] /\
  length demo_modules = S (moduleId demo_globals) /\
  forall p i, moduleToId demo_globals !! p = Some i ->
    exists m, demo_modules !! i = Some m /\ file m = p /\ id m = Some i.
Proof.
  apply (build_leaves_nothing_pending demo_world 10 "p/main" "/p/main.ts");
    vm_compute; reflexivity.
Defined.

Lemma package_resolution_result_witness :
  absolute "/node_modules/lodash.js" /\
  (isFile demo_world "/node_modules/lodash.js" = true \/
   exists projRoot manifest entry,
     findProjRoot demo_world 2 (Path.dirname "/p/main.ts") = Some projRoot /\
     require demo_world
       (resolve demo_world [resolve demo_world [projRoot; "node_modules"; "lodash"];
                            "package.json"])
     = Some manifest /\
     or_else (pkg_module manifest) (pkg_main manifest) = Text entry /\
     "/node_modules/lodash.js"
     = resolve demo_world [resolve demo_world [projRoot; "node_modules"; "lodash"]; entry]).
Proof.
  apply (package_resolution_result demo_world 2 "lodash" "/p/main.ts").
  vm_compute. reflexivity.
Defined.

(** ** How long the walk can take *)

Section WalkBound.

Import Str Path.

Lemma drop_slashes_length r : length (drop_slashes r) <= length r.
Proof.
  induction r as [| c r IH]; simpl; [done |]. destruct (is_slash c); simpl; lia.
Qed.

Lemma drop_piece_length r : length (drop_piece r) <= length r.
Proof.
  induction r as [| c r IH]; simpl; [done |]. destruct (is_slash c); simpl; lia.
Qed.

Lemma drop_slashes_head r c r' : drop_slashes r = c :: r' -> is_slash c = false.
Proof.
  induction r as [| x r IH]; simpl; [done |].
  destruct (is_slash x) eqn:Hx; [done |]. by intros [= <- <-].
Qed.

Lemma drop_piece_head r c r' : drop_piece r = c :: r' -> is_slash c = true.
Proof.
  induction r as [| x r IH]; simpl; [done |].
  destruct (is_slash x) eqn:Hx; [| done]. by intros [= <- <-].
Qed.

(** After the trailing separators, cutting the last piece removes at
    least one character. *)
Lemma drop_piece_strict r c r' :
  drop_piece (drop_slashes r) = c :: r' -> S (length r') < length r.
Proof.
  intros H. pose proof (drop_slashes_length r).
  destruct (drop_slashes r) as [| x s] eqn:Hs; [done |].
  pose proof (drop_slashes_head _ _ _ Hs) as Hx. simpl in H. rewrite Hx in H.
  pose proof (drop_piece_length s) as Hp. rewrite H in Hp. simpl in *. lia.
Qed.

Lemma dirname_chars_rooted rest :
  exists tl,
    dirname_chars (slash :: rest) = slash :: tl /\
    (tl = rest \/ length tl < length rest).
Proof.
  unfold dirname_chars. change (is_slash slash) with true. cbn iota.
  destruct (drop_piece (drop_slashes (rev rest))) as [| x before] eqn:Hd.
  - exists []. split; [done |]. destruct rest; [by left | right; simpl; lia].
  - pose proof (drop_piece_strict _ _ _ Hd) as Hs. rewrite length_rev in Hs.
    destruct before as [| y before].
    + exists [slash]. split; [done |]. right. simpl in *. lia.
    + exists (rev (y :: before)). split; [done |]. right. rewrite length_rev. lia.
Qed.

Lemma length_of_chars l : String.length (of_chars l) = length l.
Proof. induction l as [| x l IH]; simpl; [done |]. by rewrite IH. Qed.

Lemma absolute_chars p : absolute p -> exists rest, chars p = slash :: rest.
Proof.
  unfold absolute, startsWith. change (chars "/") with [slash].
  destruct (chars p) as [| c rest]; [discriminate |]. cbn [prefixb].
  intros H. apply andb_true_iff in H as [Hc _]. apply Ascii.eqb_eq in Hc as <-. eauto.
Qed.

(** The directory of an absolute path is absolute, and it is shorter
    unless the path is its own directory. *)
Lemma dirname_absolute p :
  absolute p ->
  absolute (dirname p) /\
  (dirname p = p \/ String.length (dirname p) < String.length p).
Proof.
  intros Habs. destruct (absolute_chars p Habs) as [rest Hp].
  destruct (dirname_chars_rooted rest) as (tl & Hd & Hlen).
  assert (Ep : p = of_chars (slash :: rest)) by (by rewrite <- Hp, of_chars_chars).
  unfold dirname. rewrite Hp, Hd. split; [done |].
  rewrite Ep, !length_of_chars.
  destruct Hlen as [-> | Hlt]; [by left | right; simpl; lia].
Qed.

End WalkBound.

Section WalkDecided.

Variable w : World.

Lemma findProjRoot_decided n :
  forall d,
    absolute d -> String.length d <= n ->
    findProjRoot w (S n) d = None ->
    forall fuel, findProjRoot w fuel d = None.
Proof.
  induction n as [| n IH]; intros d Habs Hlen Hnone fuel.
  - destruct d; [discriminate | simpl in Hlen; lia].
  - change (findProjRoot w (S (S n)) d)
      with (if isDir w (resolve w [d; "node_modules"]) then Some d
            else findProjRoot w (S n) (Path.dirname d)) in Hnone.
    destruct (isDir w _) eqn:Hd; [discriminate |].
    destruct (dirname_absolute d Habs) as (Habs' & [Hfix | Hshort]).
    + by apply findProjRoot_stuck.
    + destruct fuel as [| fuel]; [done |]. cbn [findProjRoot]. rewrite Hd.
      apply IH; [done | lia | done].
Qed.

(** For an importing file with an absolute path, as many steps of the
    walk as the path has characters decide it: when package resolution
    has not ended by then, it never ends. *)
Theorem package_walk_is_decided_by_path_length (pkg from : string) :
  absolute from ->
  (npmModulePath w (S (String.length from)) pkg from = OutOfFuel
   <-> forall fuel, npmModulePath w fuel pkg from = OutOfFuel).
Proof.
  intros Habs. split; [| by intros H].
  intros Hout fuel. unfold npmModulePath in *.
  destruct (dirname_absolute from Habs) as (Habs' & Hlen).
  assert (Hle : String.length (Path.dirname from) <= String.length from).
  { destruct Hlen as [-> | ?]; lia. }
  destruct (findProjRoot w (S (String.length from)) (Path.dirname from)) as [r |] eqn:Hr.
  { exfalso. revert Hout.
    repeat (match goal with
            | |- context [if ?b then _ else _] => destruct b
            | |- context [match ?o with Some _ => _ | None => _ end] => destruct o
            | |- context [match ?f with Text _ => _ | _ => _ end] => destruct f
            end; try discriminate). }
  by rewrite (findProjRoot_decided _ _ Habs' Hle Hr).
Qed.

End WalkDecided.

Lemma package_walk_is_decided_by_path_length_witness :
  npmModulePath (world_of bare) 1000 "lodash" "/p/main.ts" = OutOfFuel.
Proof.
  refine (proj1 (package_walk_is_decided_by_path_length
                   (world_of bare) "lodash" "/p/main.ts" _) _ 1000).
  - reflexivity.
  - vm_compute. reflexivity.
Defined.
